(** * Test doubles of the bridge package (internal/bridge/mocks.go)

    A shallow embedding of the test harness of the bridge package: the
    update-provider double [TestUpdater], the [Mocks] harness with its
    TLS-issue channel, the [TestCookieJar] and the [TestLocationsProvider].

    Go values are modelled as follows.
    - A pointer or an interface value is [None] (nil) or [Some] payload; the
      code under study only ever copies such values.
    - A call either returns, panics with a value, stops the program with a
      fatal error, or waits forever on a lock: type [outcome].
    - Mutable objects are passed explicitly: every method takes the state of
      its receiver and returns the new state next to its Go results. *)

From Stdlib Require Import Floats.PrimFloat DecimalString Ascii.
From stdpp Require Import base option list gmap strings relations.

(** ** Outcomes of a call *)

Inductive outcome (A : Type) : Type :=
| Returns (a : A)        (* normal return with the results *)
| Panics (v : string)    (* run-time panic, value [v], seen by [recover] *)
| Fatal (msg : string)   (* unrecoverable: runtime throw or a failed test *)
| Blocks.                (* the goroutine waits and never continues alone *)

Arguments Returns {A} a.
Arguments Panics {A} v.
Arguments Fatal {A} msg.
Arguments Blocks {A}.

Definition obind {A B} (o : outcome A) (k : A → outcome B) : outcome B :=
  match o with
  | Returns a => k a
  | Panics v => Panics v
  | Fatal s => Fatal s
  | Blocks => Blocks
  end.

Notation "'do' x ← o ; k" := (obind o (λ x, k))
  (at level 10, x pattern, o at level 100, k at level 200).

(** What a deferred [recover()] sees after the call ended. *)
Definition recover {A} (o : outcome A) : option string :=
  match o with
  | Panics v => Some v
  | _ => None
  end.

(** nil-able Go values. *)
Definition pointer (T : Type) : Type := option T.
Definition iface (T : Type) : Type := option T.
Definition error : Type := option string.

(** ** sync.RWMutex

    The lock is its writer flag and its count of readers.  [Lock] and [RLock]
    return [Blocks] where the real call waits.  The real lock also holds new
    readers back while a writer waits; the model lets them in, so it has
    every schedule of the real lock and more. *)

Record RWMutex : Type := mkRWMutex { writer : bool; readers : nat }.

Definition RWMutex_zero : RWMutex := mkRWMutex false 0.

Definition Lock (l : RWMutex) : outcome RWMutex :=
  if writer l then Blocks
  else match readers l with
       | 0 => Returns (mkRWMutex true 0)
       | S _ => Blocks
       end.

Definition Unlock (l : RWMutex) : outcome RWMutex :=
  if writer l then Returns (mkRWMutex false (readers l))
  else Fatal "sync: Unlock of unlocked RWMutex".

Definition RLock (l : RWMutex) : outcome RWMutex :=
  if writer l then Blocks
  else Returns (mkRWMutex false (S (readers l))).

Definition RUnlock (l : RWMutex) : outcome RWMutex :=
  match readers l with
  | 0 => Fatal "sync: RUnlock of unlocked RWMutex"
  | S n => Returns (mkRWMutex (writer l) n)
  end.

(** ** Errors of the os package *)

Inductive errno : Type :=
| EEXIST
| ENOENT
| EOTHER (code : nat).

Inductive os_error : Type :=
| PathError (op path : string) (e : errno)
| SyscallError (e : errno)
| ErrPatternHasSeparator (pattern : string).

Definition os_error_string (e : os_error) : string :=
  match e with
  | PathError op path EEXIST => op +:+ " " +:+ path +:+ ": file exists"
  | PathError op path ENOENT => op +:+ " " +:+ path +:+ ": no such file or directory"
  | PathError op path (EOTHER _) => op +:+ " " +:+ path +:+ ": error"
  | SyscallError EEXIST => "file exists"
  | SyscallError ENOENT => "no such file or directory"
  | SyscallError (EOTHER _) => "error"
  | ErrPatternHasSeparator p =>
      "mkdirtemp " +:+ p +:+ ": pattern contains path separator"
  end.

Definition IsExist (e : errno) : bool :=
  match e with EEXIST => true | _ => false end.

Definition IsNotExist (e : errno) : bool :=
  match e with ENOENT => true | _ => false end.

(** ** A file system by the set of its directories

    The simplest instance of the interface [TestLocationsProvider] is
    verified against: [Mkdir] fails on an existing name and adds the name
    otherwise. *)

Definition set_Mkdir (fs : gset string) (name : string) : gset string + errno :=
  if decide (name ∈ fs) then inr EEXIST else inl ({[name]} ∪ fs).

Definition set_Stat (fs : gset string) (name : string) : option errno :=
  if decide (name ∈ fs) then None else Some ENOENT.

Definition set_is_dir (fs : gset string) (name : string) : Prop := name ∈ fs.

(** ** Concrete types for the examples *)

Definition demo_Version : Type := nat * nat * nat.   (* major, minor, patch *)
Definition demo_VersionInfo : Type := list demo_Version.
Definition demo_v090 : pointer demo_Version := Some (0, 9, 0).
Definition demo_v100 : pointer demo_Version := Some (1, 0, 0).
Definition demo_v200 : pointer demo_Version := Some (2, 0, 0).

Section Bridge.

(** Types and values declared outside this file. *)
Variable semver_Version : Type.        (* semver.Version *)
Variable VersionInfo : Type.           (* updater.VersionInfo *)
Variable VersionInfo_zero : VersionInfo.
Variable LegacyRest : Type.            (* the fields of updater.VersionInfoLegacy
                                          that no literal of this file names *)
Variable LegacyRest_zero : LegacyRest.
Variable Release : Type.               (* updater.Release *)
Variable Context : Type.               (* dynamic values of context.Context *)
Variable Downloader : Type.            (* dynamic values of updater.Downloader *)
Variable TB : Type.                    (* dynamic values of testing.TB *)
Variable URL : Type.                   (* url.URL *)
Variable URL_Host : URL → string.      (* its field Host *)
Variable Cookie : Type.                (* http.Cookie *)

Definition Channel : Type := string.   (* updater.Channel *)

(** ** TestUpdater *)

Record VersionInfoLegacy : Type := mkLegacy {
  Version : pointer semver_Version;
  MinAuto : pointer semver_Version;
  RolloutProportion : float;
  legacy_rest : LegacyRest
}.

Definition VersionInfoLegacy_zero : VersionInfoLegacy :=
  mkLegacy None None 0%float LegacyRest_zero.

Record TestUpdater : Type := mkTestUpdater {
  latest : VersionInfoLegacy;
  releases : VersionInfo;
  lock : RWMutex
}.

Definition set_latest (x : VersionInfoLegacy) (u : TestUpdater) : TestUpdater :=
  mkTestUpdater x (releases u) (lock u).

Definition set_releases (x : VersionInfo) (u : TestUpdater) : TestUpdater :=
  mkTestUpdater (latest u) x (lock u).

Definition set_lock (x : RWMutex) (u : TestUpdater) : TestUpdater :=
  mkTestUpdater (latest u) (releases u) x.

(** The composite literal of [NewTestUpdater] and [SetLatestVersionLegacy]:
    a field the literal does not name gets its zero value. *)
Definition legacy_literal (version minAuto : pointer semver_Version)
  : VersionInfoLegacy :=
  {| Version := version;
     MinAuto := minAuto;
     RolloutProportion := 1%float;
     legacy_rest := LegacyRest_zero |}.

Definition NewTestUpdater (version minAuto : pointer semver_Version)
  : TestUpdater :=
  {| latest := legacy_literal version minAuto;
     releases := VersionInfo_zero;
     lock := RWMutex_zero |}.

Definition SetLatestVersionLegacy (testUpdater : TestUpdater)
    (version minAuto : pointer semver_Version) : outcome TestUpdater :=
  do l ← Lock (lock testUpdater);
  let u1 := set_lock l testUpdater in
  let u2 := set_latest (legacy_literal version minAuto) u1 in
  do l' ← Unlock (lock u2);
  Returns (set_lock l' u2).

Definition GetVersionInfoLegacy (testUpdater : TestUpdater)
    (_ : iface Context) (_ : iface Downloader) (_ : Channel)
  : outcome (TestUpdater * (VersionInfoLegacy * error)) :=
  do l ← RLock (lock testUpdater);
  let u1 := set_lock l testUpdater in
  let res := (latest u1, None) in
  do l' ← RUnlock (lock u1);
  Returns (set_lock l' u1, res).

Definition InstallUpdateLegacy (testUpdater : TestUpdater)
    (_ : iface Context) (_ : iface Downloader) (_ : VersionInfoLegacy)
  : outcome (TestUpdater * error) :=
  Returns (testUpdater, None).

Definition RemoveOldUpdates (testUpdater : TestUpdater)
  : outcome (TestUpdater * error) :=
  Returns (testUpdater, None).

Definition SetLatestVersion (testUpdater : TestUpdater)
    (releases_ : VersionInfo) : outcome TestUpdater :=
  do l ← Lock (lock testUpdater);
  let u1 := set_lock l testUpdater in
  let u2 := set_releases releases_ u1 in
  do l' ← Unlock (lock u2);
  Returns (set_lock l' u2).

Definition GetVersionInfo (testUpdater : TestUpdater)
    (_ : iface Context) (_ : iface Downloader)
  : outcome (TestUpdater * (VersionInfo * error)) :=
  do l ← RLock (lock testUpdater);
  let u1 := set_lock l testUpdater in
  let res := (releases u1, None) in
  do l' ← RUnlock (lock u1);
  Returns (set_lock l' u1, res).

Definition InstallUpdate (testUpdater : TestUpdater)
    (_ : iface Context) (_ : iface Downloader) (_ : Release)
  : outcome (TestUpdater * error) :=
  Returns (testUpdater, None).

(** *** Calls made one after the other *)

Fixpoint run_SetLatestVersionLegacy (u : TestUpdater)
    (calls : list (pointer semver_Version * pointer semver_Version))
  : outcome TestUpdater :=
  match calls with
  | [] => Returns u
  | (v, m) :: rest =>
      do u' ← SetLatestVersionLegacy u v m;
      run_SetLatestVersionLegacy u' rest
  end.

Fixpoint run_SetLatestVersion (u : TestUpdater) (calls : list VersionInfo)
  : outcome TestUpdater :=
  match calls with
  | [] => Returns u
  | r :: rest =>
      do u' ← SetLatestVersion u r;
      run_SetLatestVersion u' rest
  end.

(** The public operations of the store, with their arguments. *)
Inductive op : Type :=
| OpSetLatestVersionLegacy (version minAuto : pointer semver_Version)
| OpGetVersionInfoLegacy (ctx : iface Context) (dl : iface Downloader) (ch : Channel)
| OpInstallUpdateLegacy (ctx : iface Context) (dl : iface Downloader) (vi : VersionInfoLegacy)
| OpRemoveOldUpdates
| OpSetLatestVersion (r : VersionInfo)
| OpGetVersionInfo (ctx : iface Context) (dl : iface Downloader)
| OpInstallUpdate (ctx : iface Context) (dl : iface Downloader) (rel : Release).

Definition exec_op (u : TestUpdater) (o : op) : outcome TestUpdater :=
  match o with
  | OpSetLatestVersionLegacy v m => SetLatestVersionLegacy u v m
  | OpGetVersionInfoLegacy ctx dl ch =>
      do r ← GetVersionInfoLegacy u ctx dl ch; Returns r.1
  | OpInstallUpdateLegacy ctx dl vi =>
      do r ← InstallUpdateLegacy u ctx dl vi; Returns r.1
  | OpRemoveOldUpdates => do r ← RemoveOldUpdates u; Returns r.1
  | OpSetLatestVersion r => SetLatestVersion u r
  | OpGetVersionInfo ctx dl => do r ← GetVersionInfo u ctx dl; Returns r.1
  | OpInstallUpdate ctx dl rel =>
      do r ← InstallUpdate u ctx dl rel; Returns r.1
  end.

Fixpoint run_ops (u : TestUpdater) (ops : list op) : outcome TestUpdater :=
  match ops with
  | [] => Returns u
  | o :: rest => do u' ← exec_op u o; run_ops u' rest
  end.

(** Between two calls nobody holds the lock. *)
Definition unlocked (u : TestUpdater) : Prop := lock u = RWMutex_zero.

(** *** Goroutines calling the store at once

    A goroutine runs its calls in order.  A call is cut into the steps
    between which another goroutine may run: taking the lock, each store or
    load of one field of [latest], and the deferred release of the lock.  The
    assignment [testUpdater.latest = VersionInfoLegacy{...}] and the copy made
    by [return testUpdater.latest, nil] move one field per step, so a reader
    running beside a writer without the lock could see fields of two
    writes.  The order in which the fields move plays no part in the
    proofs. *)

Definition nfields : nat := 4.

(** Copy field number [k] of [src] into [dst]. *)
Definition copy_field (k : nat) (src dst : VersionInfoLegacy)
  : VersionInfoLegacy :=
  match k with
  | 0 => mkLegacy (Version src) (MinAuto dst) (RolloutProportion dst) (legacy_rest dst)
  | 1 => mkLegacy (Version dst) (MinAuto src) (RolloutProportion dst) (legacy_rest dst)
  | 2 => mkLegacy (Version dst) (MinAuto dst) (RolloutProportion src) (legacy_rest dst)
  | _ => mkLegacy (Version dst) (MinAuto dst) (RolloutProportion dst) (legacy_rest src)
  end.

(** The first [k] fields copied. *)
Fixpoint copy_upto (k : nat) (src dst : VersionInfoLegacy) : VersionInfoLegacy :=
  match k with
  | 0 => dst
  | S k' => copy_field k' src (copy_upto k' src dst)
  end.

Inductive call : Type :=
| CallSetLatestVersionLegacy (version minAuto : pointer semver_Version)
| CallGetVersionInfoLegacy (ctx : iface Context) (dl : iface Downloader) (ch : Channel).

(** Where a goroutine stands: between two calls, inside
    [SetLatestVersionLegacy] holding the write lock with [k] fields of the
    literal stored, or inside [GetVersionInfoLegacy] holding a read lock
    with [k] fields loaded into the result [buf]. *)
Inductive position : Type :=
| Idle
| Writing (k : nat) (lit : VersionInfoLegacy)
| Reading (k : nat) (buf : VersionInfoLegacy).

Record goroutine : Type := mkGoroutine {
  todo : list call;
  pos : position
}.

(** One step of a goroutine on the shared store; the third component is the
    result of a [GetVersionInfoLegacy] that returns at this step.  [Blocks]:
    the goroutine cannot move now (it waits for the lock, or it is done). *)
Definition goroutine_step (g : goroutine) (u : TestUpdater)
  : outcome (goroutine * TestUpdater * option (VersionInfoLegacy * error)) :=
  match pos g with
  | Idle =>
      match todo g with
      | [] => Blocks
      | CallSetLatestVersionLegacy v m :: rest =>
          do l ← Lock (lock u);
          Returns (mkGoroutine rest (Writing 0 (legacy_literal v m)),
                   set_lock l u, None)
      | CallGetVersionInfoLegacy _ _ _ :: rest =>
          do l ← RLock (lock u);
          Returns (mkGoroutine rest (Reading 0 VersionInfoLegacy_zero),
                   set_lock l u, None)
      end
  | Writing k lit =>
      if decide (k < nfields) then
        Returns (mkGoroutine (todo g) (Writing (S k) lit),
                 set_latest (copy_field k lit (latest u)) u, None)
      else
        do l ← Unlock (lock u);
        Returns (mkGoroutine (todo g) Idle, set_lock l u, None)
  | Reading k buf =>
      if decide (k < nfields) then
        Returns (mkGoroutine (todo g) (Reading (S k) (copy_field k (latest u) buf)),
                 u, None)
      else
        do l ← RUnlock (lock u);
        Returns (mkGoroutine (todo g) Idle, set_lock l u, Some (buf, None))
  end.

Record system : Type := mkSystem {
  pool : list goroutine;
  store : TestUpdater;
  returned : list (VersionInfoLegacy * error)
}.

(** Any goroutine that can move may move next. *)
Inductive system_step : system → system → Prop :=
| step_goroutine before g after u rets g' u' r :
    goroutine_step g u = Returns (g', u', r) →
    system_step (mkSystem (before ++ g :: after) u rets)
                (mkSystem (before ++ g' :: after) u' (rets ++ option_list r)).

Definition system_init (version minAuto : pointer semver_Version)
    (progs : list (list call)) : system :=
  mkSystem ((λ p, mkGoroutine p Idle) <$> progs)
           (NewTestUpdater version minAuto) [].

(** [r] is what one write of the run stored, or the constructor's seed. *)
Definition from_one_write (version minAuto : pointer semver_Version)
    (progs : list (list call)) (r : VersionInfoLegacy) : Prop :=
  r = legacy_literal version minAuto ∨
  ∃ p v m, p ∈ progs ∧ CallSetLatestVersionLegacy v m ∈ p ∧
           r = legacy_literal v m.

Definition reading (g : goroutine) : nat :=
  match pos g with Reading _ _ => 1 | _ => 0 end.

Definition writing (g : goroutine) : nat :=
  match pos g with Writing _ _ => 1 | _ => 0 end.

(** What holds of one goroutine while the record in memory is [mem]: its
    pending writes are writes of the run, a writer has stored the first [k]
    fields of its literal, a reader has loaded the first [k] fields of the
    record in memory. *)
Definition pos_ok (P : VersionInfoLegacy → Prop) (mem : VersionInfoLegacy)
    (g : goroutine) : Prop :=
  (∀ v m, CallSetLatestVersionLegacy v m ∈ todo g → P (legacy_literal v m)) ∧
  match pos g with
  | Idle => True
  | Writing k lit =>
      P lit ∧ k ≤ nfields ∧ ∃ m0, mem = copy_upto k lit m0
  | Reading k buf =>
      k ≤ nfields ∧ buf = copy_upto k mem VersionInfoLegacy_zero
  end.

Record system_inv (P : VersionInfoLegacy → Prop) (s : system) : Prop := {
  inv_readers : sum_list_with reading (pool s) = readers (lock (store s));
  inv_writers :
    sum_list_with writing (pool s) = if writer (lock (store s)) then 1 else 0;
  inv_excl : writer (lock (store s)) = true → readers (lock (store s)) = 0;
  inv_mem : writer (lock (store s)) = false → P (latest (store s));
  inv_pool : Forall (pos_ok P (latest (store s))) (pool s);
  inv_returned : Forall (λ r, P r.1 ∧ r.2 = None) (returned s)
}.

(** ** Channels

    A channel value is nil or the address of a channel; of a channel of
    element type struct{} without buffer only the closed flag is kept. *)

Definition chan : Type := option nat.

(** ** Mocks of the collaborators

    The mock types of package mocks and the expectation controller they
    report to are generated or imported code, not part of this file; they
    are modelled by what the construction contract says of them. *)

(** Modelled from the spec: the values that cross the boundary of a mock, the
    arguments and results of the collaborators' methods. *)
Inductive value : Type :=
| VNil
| VBool (b : bool)
| VString (s : string)
| VDuration (ns : Z)           (* time.Duration, in nanoseconds *)
| VChan (c : chan)
| VOpaque (id : nat).          (* any other value, by identity *)

#[local] Instance value_eq_dec : EqDecision value.
Proof. solve_decision. Defined.

(** Modelled from the spec: how an expectation constrains one argument,
    "with any argument" or a given value. *)
Inductive matcher : Type :=
| MAny                         (* gomock.Any() *)
| MEq (v : value).             (* a plain argument: equal to [v] *)

Definition matches (m : matcher) (v : value) : bool :=
  match m with
  | MAny => true
  | MEq x => bool_decide (x = v)
  end.

Fixpoint matches_all (ms : list matcher) (vs : list value) : bool :=
  match ms, vs with
  | [], [] => true
  | m :: ms', v :: vs' => matches m v && matches_all ms' vs'
  | _, _ => false
  end.

(** Modelled from the spec: how many calls an expectation allows, "an
    unbounded number of calls" or a given number. *)
Inductive times : Type :=
| AnyTimes
| Times (n : nat).

(** Modelled from the spec: one mock type per collaborator capability. *)
Inductive mock_kind : Type :=
| KProxyController
| KTLSReporter
| KAutostarter
| KPanicHandler
| KReporter
| KHeartbeatManager.

#[local] Instance mock_kind_eq_dec : EqDecision mock_kind.
Proof. solve_decision. Defined.

(** Modelled from the spec: a mock object, by its type and the controller
    it was created with. *)
Record mock : Type := mkMock { mock_kind_of : mock_kind; mock_ctrl : nat }.

#[local] Instance mock_eq_dec : EqDecision mock.
Proof. solve_decision. Defined.

(** Modelled from the spec: an expectation, the rule that a call pattern is
    allowed and what it returns. *)
Record expectation : Type := mkExpectation {
  exp_receiver : mock;
  exp_method : string;
  exp_args : list matcher;
  exp_rets : list value;
  exp_times : times;
  exp_calls : nat              (* calls matched so far *)
}.

Definition exhausted (e : expectation) : bool :=
  match exp_times e with
  | AnyTimes => false
  | Times n => bool_decide (n ≤ exp_calls e)
  end.

Definition accepts (e : expectation) (recv : mock) (method : string)
    (args : list value) : bool :=
  bool_decide (exp_receiver e = recv) && bool_decide (exp_method e = method)
  && matches_all (exp_args e) args && negb (exhausted e).

Definition count_call (e : expectation) : expectation :=
  mkExpectation (exp_receiver e) (exp_method e) (exp_args e) (exp_rets e)
                (exp_times e) (S (exp_calls e)).

(** Modelled from the spec: the expectation controller (gomock.Controller).
    A call on a mock is answered by the first expectation registered for it
    that accepts the arguments and still allows a call; the call is counted
    and the programmed results are returned.  [None]: no expectation allows
    the call. *)
Fixpoint find_expectation (es : list expectation) (recv : mock)
    (method : string) (args : list value)
  : option (list value * list expectation) :=
  match es with
  | [] => None
  | e :: es' =>
      if accepts e recv method args then Some (exp_rets e, count_call e :: es')
      else match find_expectation es' recv method args with
           | Some (rets, es'') => Some (rets, e :: es'')
           | None => None
           end
  end.

(** The world the harness lives in: the channels made so far with their
    closed flag, and the expectations of every controller created so far. *)
Record World : Type := mkWorld {
  chans : gmap nat bool;
  ctrls : gmap nat (list expectation)
}.

(** make(chan struct{}) *)
Definition make_chan (w : World) : chan * World :=
  let a := fresh (dom (chans w)) in
  (Some a, mkWorld (<[a := false]> (chans w)) (ctrls w)).

(** close(c) *)
Definition close_chan (w : World) (c : chan) : outcome World :=
  match c with
  | None => Panics "close of nil channel"
  | Some a =>
      match chans w !! a with
      | Some false => Returns (mkWorld (<[a := true]> (chans w)) (ctrls w))
      | Some true => Panics "close of closed channel"
      | None => Panics "close of nil channel"
      end
  end.

(** Modelled from the spec: gomock.NewController, a controller with no
    expectation yet. *)
Definition NewController (w : World) (_ : iface TB) : nat * World :=
  let c := fresh (dom (ctrls w)) in
  (c, mkWorld (chans w) (<[c := []]> (ctrls w))).

(** Modelled from the spec: m.EXPECT().Method(args).Return(rets).AnyTimes()
    and its variants register one expectation, after those already there. *)
Definition expect (w : World) (m : mock) (method : string)
    (args : list matcher) (rets : list value) (t : times) : World :=
  mkWorld (chans w)
          (<[mock_ctrl m :=
               default [] (ctrls w !! mock_ctrl m)
               ++ [mkExpectation m method args rets t 0]]> (ctrls w)).

(** Modelled from the spec: a method call on a mock.  A call no expectation
    allows fails the test. *)
Definition mock_call (w : World) (m : mock) (method : string)
    (args : list value) : outcome (list value * World) :=
  match find_expectation (default [] (ctrls w !! mock_ctrl m)) m method args with
  | Some (rets, es) =>
      Returns (rets, mkWorld (chans w) (<[mock_ctrl m := es]> (ctrls w)))
  | None => Fatal "Unexpected call"
  end.

(** Modelled from the spec: MockTLSReporter.GetTLSIssueCh, the generated
    method: it forwards to the controller and converts the first result. *)
Definition GetTLSIssueCh (w : World) (m : mock) : outcome (chan * World) :=
  do r ← mock_call w m "GetTLSIssueCh" nil;
  match r.1 with
  | VChan c :: _ => Returns (c, r.2)
  | _ => Returns (None, r.2)
  end.

(** ** Mocks *)

Record Mocks : Type := mkMocks {
  ProxyCtl : mock;
  TLSReporter : mock;
  TLSIssueCh : chan;
  Updater : TestUpdater;
  Autostarter : mock;
  CrashHandler : mock;
  Reporter : mock;
  Heartbeat : mock
}.

Definition Millisecond : Z := 1000000.

Definition NewMocks (w : World) (tb : iface TB)
    (version minAuto : pointer semver_Version) : Mocks * World :=
  let '(ctl, w) := NewController w tb in
  let '(ch, w) := make_chan w in
  let mocks :=
    {| ProxyCtl := mkMock KProxyController ctl;
       TLSReporter := mkMock KTLSReporter ctl;
       TLSIssueCh := ch;
       Updater := NewTestUpdater version minAuto;
       Autostarter := mkMock KAutostarter ctl;
       CrashHandler := mkMock KPanicHandler ctl;
       Reporter := mkMock KReporter ctl;
       Heartbeat := mkMock KHeartbeatManager ctl |} in
  let w := expect w (TLSReporter mocks) "GetTLSIssueCh" []
                  [VChan (TLSIssueCh mocks)] AnyTimes in
  let w := expect w (CrashHandler mocks) "HandlePanic" [MAny] [] AnyTimes in
  let w := expect w (Heartbeat mocks) "IsTelemetryAvailable" [MAny] []
                  AnyTimes in
  let w := expect w (Heartbeat mocks) "GetHeartbeatPeriodicInterval" []
                  [VDuration (500 * Millisecond)] AnyTimes in
  let w := expect w (Reporter mocks) "ReportMessageWithContext"
                  [MEq (VString "Failed to sync, will retry later"); MAny] []
                  AnyTimes in
  (mocks, w).

Definition Close (mocks : Mocks) (w : World) : outcome World :=
  close_chan w (TLSIssueCh mocks).

(** What may happen to a harness between its construction and a call of
    interest: calls on any mock with any arguments, further expectations
    registered by a test, and [Close]. *)
Inductive harness_event : Type :=
| EvCall (m : mock) (method : string) (args : list value)
| EvExpect (m : mock) (method : string) (args : list matcher)
           (rets : list value) (t : times)
| EvClose.

(** An event that fails (an unexpected call, a second [Close]) leaves the
    world as it was. *)
Definition run_event (mocks : Mocks) (w : World) (ev : harness_event) : World :=
  match ev with
  | EvCall m method args =>
      match mock_call w m method args with
      | Returns (_, w') => w'
      | _ => w
      end
  | EvExpect m method args rets t => expect w m method args rets t
  | EvClose =>
      match Close mocks w with
      | Returns w' => w'
      | _ => w
      end
  end.

Definition run_events (mocks : Mocks) (w : World) (evs : list harness_event)
  : World :=
  foldl (run_event mocks) w evs.

(** Calls on the mocks only, as a system under test makes them. *)
Definition calls_only (calls : list (mock * string * list value))
  : list harness_event :=
  map (λ c, EvCall c.1.1 c.1.2 c.2) calls.

(** [n] calls of GetTLSIssueCh in a row and the channels they returned. *)
Fixpoint GetTLSIssueCh_repeat (n : nat) (w : World) (m : mock)
  : outcome (list chan * World) :=
  match n with
  | 0 => Returns ([], w)
  | S n' =>
      do r ← GetTLSIssueCh w m;
      do rs ← GetTLSIssueCh_repeat n' r.2 m;
      Returns (r.1 :: rs.1, rs.2)
  end.

(** The first expectation of the TLS reporter's controller answers
    GetTLSIssueCh with channel [ch], any number of times. *)
Definition tls_wired (m : mock) (ch : chan) (w : World) : Prop :=
  ∃ e es, ctrls w !! mock_ctrl m = Some (e :: es) ∧
          exp_receiver e = m ∧ exp_method e = "GetTLSIssueCh" ∧
          exp_args e = [] ∧ exp_rets e = [VChan ch] ∧ exp_times e = AnyTimes.

(** ** TestCookieJar *)

(** A slice value: nil, or its elements. *)
Definition slice (T : Type) : Type := option (list T).

(** The jar; a map value is nil or the finite map it holds. *)
Record TestCookieJar : Type := mkTestCookieJar {
  cookies : option (gmap string (slice (pointer Cookie)))
}.

Definition NewTestCookieJar : TestCookieJar := mkTestCookieJar (Some ∅).

Definition nil_dereference : string :=
  "runtime error: invalid memory address or nil pointer dereference".

(** [j.cookies[u.Host] = cookies]: the operand [u.Host] is evaluated first,
    then the entry is assigned. *)
Definition SetCookies (j : TestCookieJar) (u : pointer URL)
    (cookies_ : slice (pointer Cookie)) : outcome TestCookieJar :=
  match u with
  | None => Panics nil_dereference
  | Some url =>
      match cookies j with
      | None => Panics "assignment to entry in nil map"
      | Some m => Returns (mkTestCookieJar (Some (<[URL_Host url := cookies_]> m)))
      end
  end.

(** [return j.cookies[u.Host]]: a missing key, or a nil map, gives the zero
    value of the element type, the nil slice. *)
Definition Cookies (j : TestCookieJar) (u : pointer URL)
  : outcome (slice (pointer Cookie)) :=
  match u with
  | None => Panics nil_dereference
  | Some url =>
      Returns (match cookies j with
               | None => None
               | Some m => default None (m !! URL_Host url)
               end)
  end.

Fixpoint run_SetCookies (j : TestCookieJar)
    (calls : list (URL * slice (pointer Cookie))) : outcome TestCookieJar :=
  match calls with
  | [] => Returns j
  | (u, cs) :: rest => do j' ← SetCookies j (Some u) cs; run_SetCookies j' rest
  end.

(** The slice given by the last call for [host], nil when there is none. *)
Fixpoint last_set (host : string) (calls : list (URL * slice (pointer Cookie)))
  : slice (pointer Cookie) :=
  match calls with
  | [] => None
  | (u, cs) :: rest =>
      if bool_decide (Exists (λ c, URL_Host c.1 = host) rest)
      then last_set host rest
      else if bool_decide (URL_Host u = host) then cs else None
  end.

(** ** os.MkdirTemp

    The standard library's function, over a file system given by its
    operations: [Mkdir fs name] makes one directory or fails with an error
    number, [Stat fs name] is the error of os.Stat, [is_dir fs name] says
    that a directory exists under that name.  [TempDir] is what os.TempDir()
    returns and [runtime_rand i] is the i-th number the runtime's random
    source produces.  Path syntax is that of Unix. *)

Variable FS : Type.
Variable Mkdir : FS → string → FS + errno.
Variable Stat : FS → string → option errno.
Variable is_dir : FS → string → Prop.
Variable TempDir : string.
Variable runtime_rand : nat → N.

(** What the proofs need of the file system: a successful [Mkdir] made a
    directory that was not there and removed none. *)
Hypothesis Mkdir_creates :
  ∀ fs0 name fs1, Mkdir fs0 name = inl fs1 →
    ¬ is_dir fs0 name ∧ is_dir fs1 name ∧ ∀ q, is_dir fs0 q → is_dir fs1 q.

Record OS : Type := mkOS {
  fs : FS;
  draws : nat                  (* random numbers consumed so far *)
}.

Definition PathSeparator : ascii := "/"%char.

Definition IsPathSeparator (c : ascii) : bool := bool_decide (c = PathSeparator).

Fixpoint has_separator (s : string) : bool :=
  match s with
  | EmptyString => false
  | String c s' => IsPathSeparator c || has_separator s'
  end.

Fixpoint ends_with_separator (s : string) : bool :=
  match s with
  | EmptyString => false
  | String c EmptyString => IsPathSeparator c
  | String _ s' => ends_with_separator s'
  end.

(** The parts of [s] before and after its last star. *)
Fixpoint split_last_star (s : string) : option (string * string) :=
  match s with
  | EmptyString => None
  | String c s' =>
      match split_last_star s' with
      | Some (p, q) => Some (String c p, q)
      | None => if bool_decide (c = "*"%char) then Some (EmptyString, s') else None
      end
  end.

Definition prefixAndSuffix (pattern : string) : (string * string) + os_error :=
  if has_separator pattern then inr (ErrPatternHasSeparator pattern)
  else match split_last_star pattern with
       | Some (p, q) => inl (p, q)
       | None => inl (pattern, EmptyString)
       end.

Definition joinPath (dir name : string) : string :=
  if ends_with_separator dir then dir +:+ name
  else dir +:+ String PathSeparator EmptyString +:+ name.

(** itoa.Uitoa: decimal digits. *)
Definition Uitoa (n : N) : string := NilEmpty.string_of_uint (N.to_uint n).

Definition nextRandom (o : OS) : string * OS :=
  (Uitoa (runtime_rand (draws o) mod 2 ^ 32)%N, mkOS (fs o) (S (draws o))).

(** The loop of MkdirTemp with [tries] attempts left. *)
Fixpoint MkdirTemp_loop (tries : nat) (o : OS) (dir prefix suffix : string)
  : OS * (string + os_error) :=
  match tries with
  | 0 =>
      (o, inr (PathError "mkdirtemp"
                 (dir +:+ String PathSeparator EmptyString +:+ prefix +:+ "*" +:+ suffix)
                 EEXIST))
  | S tries' =>
      let '(r, o1) := nextRandom o in
      let name := prefix +:+ r +:+ suffix in
      match Mkdir (fs o1) name with
      | inl fs' => (mkOS fs' (draws o1), inl name)
      | inr e =>
          if IsExist e then MkdirTemp_loop tries' o1 dir prefix suffix
          else if IsNotExist e then
            match Stat (fs o1) dir with
            | Some e' =>
                if IsNotExist e' then (o1, inr (PathError "stat" dir e'))
                else (o1, inr (PathError "mkdir" name e))
            | None => (o1, inr (PathError "mkdir" name e))
            end
          else (o1, inr (PathError "mkdir" name e))
      end
  end.

Definition max_tries : nat := 100 * 100.

Definition MkdirTemp (o : OS) (dir pattern : string)
  : OS * (string + os_error) :=
  let dir := if bool_decide (dir = EmptyString) then TempDir else dir in
  match prefixAndSuffix pattern with
  | inr err => (o, inr err)
  | inl (prefix, suffix) =>
      MkdirTemp_loop max_tries o dir (joinPath dir prefix) suffix
  end.

(** ** TestLocationsProvider *)

Record TestLocationsProvider : Type := mkTestLocationsProvider {
  config : string;
  data : string;
  cache : string
}.

Definition NewTestLocationsProvider (o : OS) (dir : string)
  : outcome (TestLocationsProvider * OS) :=
  match MkdirTemp o dir "config" with
  | (_, inr err) => Panics (os_error_string err)
  | (o, inl config_) =>
      match MkdirTemp o dir "data" with
      | (_, inr err) => Panics (os_error_string err)
      | (o, inl data_) =>
          match MkdirTemp o dir "cache" with
          | (_, inr err) => Panics (os_error_string err)
          | (o, inl cache_) =>
              Returns ({| config := config_; data := data_; cache := cache_ |}, o)
          end
      end
  end.

Definition UserConfig (provider : TestLocationsProvider) : string :=
  config provider.

Definition UserData (provider : TestLocationsProvider) : string :=
  data provider.

Definition UserCache (provider : TestLocationsProvider) : string :=
  cache provider.

(** [path] names an entry of the directory [dir]: [dir], a separator unless
    [dir] ends with one, and one name without separator. *)
Definition in_directory (dir path : string) : Prop :=
  ∃ name, name ≠ EmptyString ∧ has_separator name = false ∧
          path = joinPath dir name.

(** The directory MkdirTemp works in. *)
Definition effective_dir (dir : string) : string :=
  if bool_decide (dir = EmptyString) then TempDir else dir.

(** ** Further notions used to state what the code does *)

(** The arguments of the last SetLatestVersionLegacy among [ops], [seed]
    when there is none. *)
Fixpoint last_legacy_args
    (seed : pointer semver_Version * pointer semver_Version) (ops : list op)
  : pointer semver_Version * pointer semver_Version :=
  match ops with
  | [] => seed
  | OpSetLatestVersionLegacy v m :: rest => last_legacy_args (v, m) rest
  | _ :: rest => last_legacy_args seed rest
  end.

(** The argument of the last SetLatestVersion among [ops], [seed] when
    there is none. *)
Fixpoint last_releases_arg (seed : VersionInfo) (ops : list op) : VersionInfo :=
  match ops with
  | [] => seed
  | OpSetLatestVersion r :: rest => last_releases_arg r rest
  | _ :: rest => last_releases_arg seed rest
  end.

(** The operations that assign a field of the store. *)
Definition is_setter (o : op) : bool :=
  match o with
  | OpSetLatestVersionLegacy _ _ | OpSetLatestVersion _ => true
  | _ => false
  end.

(** The states a run of goroutines can reach. *)
Definition reachable (version minAuto : pointer semver_Version)
    (progs : list (list call)) (s : system) : Prop :=
  rtc system_step (system_init version minAuto progs) s.






(** The expectation a harness keeps for one background call: the first
    expectation of the mock's controller that is for this mock and method
    takes the arguments [ms], answers [rets], and allows any number of
    calls. *)
Definition programmed (m : mock) (method : string) (ms : list matcher)
    (rets : list value) (w : World) : Prop :=
  ∃ pre e post,
    ctrls w !! mock_ctrl m = Some (pre ++ e :: post) ∧
    Forall (λ x, exp_receiver x ≠ m ∨ exp_method x ≠ method) pre ∧
    exp_receiver e = m ∧ exp_method e = method ∧ exp_args e = ms ∧
    exp_rets e = rets ∧ exp_times e = AnyTimes.

(** A call counts on one expectation and leaves what every expectation is
    for and answers. *)
Definition same_rule (x y : expectation) : Prop :=
  exp_receiver y = exp_receiver x ∧ exp_method y = exp_method x ∧
  exp_args y = exp_args x ∧ exp_rets y = exp_rets x ∧
  exp_times y = exp_times x.

(** The three paths a provider hands out. *)
Definition provider_paths (p : TestLocationsProvider) : list string :=
  [UserConfig p; UserData p; UserCache p].

(** The hosts a sequence of SetCookies calls names. *)
Definition hosts_of (calls : list (URL * slice (pointer Cookie)))
  : gset string :=
  list_to_set ((λ c, URL_Host c.1) <$> calls).

(** ** TestUpdater: calls made one after the other *)

Lemma SetLatestVersionLegacy_unlocked u v m :
  unlocked u →
  SetLatestVersionLegacy u v m =
  Returns (mkTestUpdater (legacy_literal v m) (releases u) RWMutex_zero).
Proof.
  unfold unlocked, SetLatestVersionLegacy. destruct u as [lat rel lk]. simpl.
  intros ->. reflexivity.
Qed.

Lemma SetLatestVersion_unlocked u r :
  unlocked u →
  SetLatestVersion u r = Returns (mkTestUpdater (latest u) r RWMutex_zero).
Proof.
  unfold unlocked, SetLatestVersion. destruct u as [lat rel lk]. simpl.
  intros ->. reflexivity.
Qed.

Lemma GetVersionInfoLegacy_unlocked u ctx dl ch :
  unlocked u →
  GetVersionInfoLegacy u ctx dl ch = Returns (u, (latest u, None)).
Proof.
  unfold unlocked, GetVersionInfoLegacy. destruct u as [lat rel lk]. simpl.
  intros ->. reflexivity.
Qed.

Lemma GetVersionInfo_unlocked u ctx dl :
  unlocked u →
  GetVersionInfo u ctx dl = Returns (u, (releases u, None)).
Proof.
  unfold unlocked, GetVersionInfo. destruct u as [lat rel lk]. simpl.
  intros ->. reflexivity.
Qed.

(** What a run of writes leaves in the store. *)
Lemma run_SetLatestVersionLegacy_unlocked u calls :
  unlocked u →
  ∃ u', run_SetLatestVersionLegacy u calls = Returns u' ∧ unlocked u' ∧
        releases u' = releases u ∧
        latest u' = match last calls with
                    | Some (v, m) => legacy_literal v m
                    | None => latest u
                    end.
Proof.
  revert u. induction calls as [|[v m] calls IH]; intros u Hu; simpl.
  - by exists u.
  - rewrite SetLatestVersionLegacy_unlocked by exact Hu. simpl.
    destruct (IH (mkTestUpdater (legacy_literal v m) (releases u) RWMutex_zero))
      as (u' & Hrun & Hu' & Hrel & Hlat); [reflexivity|].
    exists u'. split; [exact Hrun|]. split; [exact Hu'|]. split; [exact Hrel|].
    rewrite Hlat, last_cons. by destruct (last calls) as [[v' m']|].
Qed.

Lemma run_SetLatestVersion_unlocked u calls :
  unlocked u →
  ∃ u', run_SetLatestVersion u calls = Returns u' ∧ unlocked u' ∧
        latest u' = latest u ∧
        releases u' = default (releases u) (last calls).
Proof.
  revert u. induction calls as [|r calls IH]; intros u Hu; simpl.
  - by exists u.
  - rewrite SetLatestVersion_unlocked by exact Hu. simpl.
    destruct (IH (mkTestUpdater (latest u) r RWMutex_zero))
      as (u' & Hrun & Hu' & Hlat & Hrel); [reflexivity|].
    exists u'. split; [exact Hrun|]. split; [exact Hu'|]. split; [exact Hlat|].
    rewrite Hrel, last_cons. by destruct (last calls).
Qed.

(** Every public operation returns when called on an unlocked store, leaves
    it unlocked and keeps the rollout proportion at 1. *)
Lemma exec_op_unlocked u o :
  unlocked u → RolloutProportion (latest u) = 1%float →
  ∃ u', exec_op u o = Returns u' ∧ unlocked u' ∧
        RolloutProportion (latest u') = 1%float.
Proof.
  intros Hu Hone.
  destruct o; simpl;
    rewrite ?SetLatestVersionLegacy_unlocked, ?GetVersionInfoLegacy_unlocked,
      ?SetLatestVersion_unlocked, ?GetVersionInfo_unlocked by exact Hu;
    simpl; eexists; (split; [reflexivity|]); split;
    first [exact Hu | exact Hone | reflexivity].
Qed.

Lemma run_ops_unlocked u ops :
  unlocked u → RolloutProportion (latest u) = 1%float →
  ∃ u', run_ops u ops = Returns u' ∧ unlocked u' ∧
        RolloutProportion (latest u') = 1%float.
Proof.
  revert u. induction ops as [|o ops IH]; intros u Hu Hone; simpl.
  - eauto.
  - destruct (exec_op_unlocked u o Hu Hone) as (u1 & -> & Hu1 & Hone1). simpl.
    by apply IH.
Qed.

(** C1. After any sequence of SetLatestVersionLegacy calls on a fresh
    TestUpdater (every call returns), GetVersionInfoLegacy with any context,
    downloader and channel returns the record made of the Version and MinAuto
    of the last call, or of the constructor's arguments when no call was made,
    with RolloutProportion 1.0, and a nil error. *)
Theorem GetVersionInfoLegacy_returns_last_set
    (version minAuto : pointer semver_Version)
    (calls : list (pointer semver_Version * pointer semver_Version))
    (ctx : iface Context) (dl : iface Downloader) (ch : Channel) :
  ∃ u, run_SetLatestVersionLegacy (NewTestUpdater version minAuto) calls
       = Returns u ∧
       let vm := default (version, minAuto) (last calls) in
       GetVersionInfoLegacy u ctx dl ch =
       Returns (u, ({| Version := vm.1; MinAuto := vm.2;
                       RolloutProportion := 1%float;
                       legacy_rest := LegacyRest_zero |}, None)).
Proof.
  destruct (run_SetLatestVersionLegacy_unlocked
              (NewTestUpdater version minAuto) calls)
    as (u & Hrun & Hu & _ & Hlat); [reflexivity|].
  exists u. split; [exact Hrun|]. simpl.
  rewrite GetVersionInfoLegacy_unlocked by exact Hu. rewrite Hlat.
  destruct (last calls) as [[v m]|]; reflexivity.
Qed.

(** C2. After any sequence of SetLatestVersion calls on a fresh TestUpdater
    (every call returns), GetVersionInfo with any context and downloader
    returns the very value the last call was given, and a nil error; when
    no call was made it returns the zero value of the release-info type. *)
Theorem GetVersionInfo_returns_last_set
    (version minAuto : pointer semver_Version) (calls : list VersionInfo)
    (ctx : iface Context) (dl : iface Downloader) :
  ∃ u, run_SetLatestVersion (NewTestUpdater version minAuto) calls
       = Returns u ∧
       GetVersionInfo u ctx dl =
       Returns (u, (default VersionInfo_zero (last calls), None)).
Proof.
  destruct (run_SetLatestVersion_unlocked
              (NewTestUpdater version minAuto) calls)
    as (u & Hrun & Hu & _ & Hrel); [reflexivity|].
  exists u. split; [exact Hrun|].
  rewrite GetVersionInfo_unlocked by exact Hu. by rewrite Hrel.
Qed.

(** C4. The rollout proportion of the legacy record is 1.0 in the store
    NewTestUpdater builds, in the store SetLatestVersionLegacy leaves
    whenever it returns (whatever the store held and whatever its arguments),
    and in the store any sequence of public operations on a fresh TestUpdater
    leaves; every such sequence runs to its end. *)
Theorem RolloutProportion_always_one :
  (∀ version minAuto,
     RolloutProportion (latest (NewTestUpdater version minAuto)) = 1%float) ∧
  (∀ u version minAuto,
     match SetLatestVersionLegacy u version minAuto with
     | Returns u' => RolloutProportion (latest u') = 1%float
     | _ => True
     end) ∧
  (∀ version minAuto ops,
     ∃ u, run_ops (NewTestUpdater version minAuto) ops = Returns u ∧
          RolloutProportion (latest u) = 1%float).
Proof.
  split; [|split].
  - reflexivity.
  - intros [lat rel [[] [|n]]] v m; unfold SetLatestVersionLegacy, Lock; simpl;
      first [exact I | reflexivity].
  - intros v m ops.
    destruct (run_ops_unlocked (NewTestUpdater v m) ops)
      as (u & Hrun & _ & Hone); [reflexivity | reflexivity |].
    by exists u.
Qed.

(** C5. InstallUpdateLegacy, InstallUpdate and RemoveOldUpdates return a nil
    error for every store (locked or not) and every argument, nil included,
    and return the store as they found it. *)
Theorem install_and_remove_always_succeed
    (u : TestUpdater) (ctx : iface Context) (dl : iface Downloader)
    (vi : VersionInfoLegacy) (rel : Release) :
  InstallUpdateLegacy u ctx dl vi = Returns (u, None) ∧
  InstallUpdate u ctx dl rel = Returns (u, None) ∧
  RemoveOldUpdates u = Returns (u, None) ∧
  InstallUpdateLegacy u None None VersionInfoLegacy_zero = Returns (u, None) ∧
  InstallUpdate u None None rel = Returns (u, None).
Proof.
  unfold InstallUpdateLegacy, InstallUpdate, RemoveOldUpdates.
  repeat split.
Qed.

(** C6. On a store nobody holds the lock of, SetLatestVersionLegacy returns
    and leaves [releases] as it was, so GetVersionInfo returns after it what it
    returned before; SetLatestVersion returns and leaves [latest] as it was, so
    GetVersionInfoLegacy returns after it what it returned before. *)
Theorem latest_and_releases_independent
    (u : TestUpdater) (version minAuto : pointer semver_Version)
    (r : VersionInfo) (ctx : iface Context) (dl : iface Downloader)
    (ch : Channel) :
  unlocked u →
  ∃ u1 u2,
    SetLatestVersionLegacy u version minAuto = Returns u1 ∧
    releases u1 = releases u ∧
    GetVersionInfo u ctx dl = Returns (u, (releases u, None)) ∧
    GetVersionInfo u1 ctx dl = Returns (u1, (releases u, None)) ∧
    SetLatestVersion u r = Returns u2 ∧
    latest u2 = latest u ∧
    GetVersionInfoLegacy u ctx dl ch = Returns (u, (latest u, None)) ∧
    GetVersionInfoLegacy u2 ctx dl ch = Returns (u2, (latest u, None)).
Proof.
  intros Hu.
  exists (mkTestUpdater (legacy_literal version minAuto) (releases u) RWMutex_zero),
         (mkTestUpdater (latest u) r RWMutex_zero).
  rewrite SetLatestVersionLegacy_unlocked, SetLatestVersion_unlocked by exact Hu.
  rewrite (GetVersionInfo_unlocked u), (GetVersionInfoLegacy_unlocked u)
    by exact Hu.
  rewrite GetVersionInfo_unlocked, GetVersionInfoLegacy_unlocked by reflexivity.
  repeat split.
Qed.

(** ** Goroutines: no read sees fields of two writes *)

Lemma copy_upto_all (src dst : VersionInfoLegacy) :
  copy_upto nfields src dst = src.
Proof. destruct src; reflexivity. Qed.

Lemma sum_list_with_zero {A} (f : A → nat) (l : list A) :
  sum_list_with f l = 0 ↔ Forall (λ x, f x = 0) l.
Proof.
  induction l as [|x l IH]; simpl.
  - split; [constructor | reflexivity].
  - rewrite Forall_cons, <- IH. lia.
Qed.

Lemma sum_list_with_split {A} (f : A → nat) (l1 l2 : list A) (x : A) :
  sum_list_with f (l1 ++ x :: l2) =
  sum_list_with f l1 + f x + sum_list_with f l2.
Proof. rewrite sum_list_with_app. simpl. lia. Qed.

Ltac count_lia := unfold reading, writing in *; simpl in *; lia.

(** A goroutine between two calls does not care what is in memory. *)
Lemma pos_ok_idle P mem mem' g :
  reading g = 0 → writing g = 0 → pos_ok P mem g → pos_ok P mem' g.
Proof.
  unfold reading, writing, pos_ok. intros Hr Hw [Htodo Hpos].
  split; [exact Htodo|]. destruct (pos g); [exact I | discriminate | discriminate].
Qed.

Lemma pos_ok_all_idle P mem mem' gs :
  sum_list_with reading gs = 0 → sum_list_with writing gs = 0 →
  Forall (pos_ok P mem) gs → Forall (pos_ok P mem') gs.
Proof.
  rewrite !sum_list_with_zero. intros Hr Hw Hok.
  induction Hok as [|g gs Hg Hgs IH]; [constructor|].
  apply Forall_cons in Hr as [Hr1 Hr2]. apply Forall_cons in Hw as [Hw1 Hw2].
  constructor; [by eapply pos_ok_idle | by apply IH].
Qed.

Lemma system_inv_init P version minAuto progs :
  P (legacy_literal version minAuto) →
  (∀ p v m, p ∈ progs → CallSetLatestVersionLegacy v m ∈ p →
            P (legacy_literal v m)) →
  system_inv P (system_init version minAuto progs).
Proof.
  intros Hseed Hprogs. split; simpl.
  - induction progs as [|p progs IH]; simpl; [reflexivity|].
    apply IH. intros q v m Hq. apply Hprogs. by right.
  - induction progs as [|p progs IH]; simpl; [reflexivity|].
    apply IH. intros q v m Hq. apply Hprogs. by right.
  - discriminate.
  - intros _. exact Hseed.
  - apply Forall_fmap, Forall_forall. intros p Hp. split; simpl; [|exact I].
    intros v m. by apply Hprogs.
  - constructor.
Qed.

Lemma system_inv_step P s s' :
  system_inv P s → system_step s s' → system_inv P s'.
Proof.
  intros [Hrd Hwr Hex Hmem Hpool Hret] Hstep.
  destruct Hstep as [before g after u rets g' u' r Hg]. simpl in *.
  rewrite sum_list_with_split in Hrd, Hwr.
  apply Forall_app in Hpool as [Hbefore Hg_after].
  apply Forall_cons in Hg_after as [[Htodo Hpos] Hafter].
  destruct g as [td ps]. unfold goroutine_step in Hg. simpl in *.
  destruct ps as [|k lit|k buf].
  - (* between two calls: the next call takes its lock *)
    destruct td as [|[v m|ctx dl ch] rest]; [discriminate| |].
    + unfold Lock in Hg. destruct u as [lat rel [w n]]. simpl in *.
      destruct w; [discriminate|]. destruct n; [|discriminate].
      injection Hg as <- <- <-. unfold reading, writing in Hrd, Hwr. simpl in *.
      split; simpl; rewrite ?sum_list_with_split; unfold reading, writing; simpl.
      * lia.
      * lia.
      * reflexivity.
      * discriminate.
      * apply Forall_app. split; [exact Hbefore|]. constructor; [|exact Hafter].
        split; simpl.
        -- intros v' m' Hin. apply Htodo. by right.
        -- split; [apply Htodo; by left|]. split; [unfold nfields; lia|].
           by exists lat.
      * by rewrite app_nil_r.
    + unfold RLock in Hg. destruct u as [lat rel [w n]]. simpl in *.
      destruct w; [discriminate|].
      injection Hg as <- <- <-. unfold reading, writing in Hrd, Hwr. simpl in *.
      split; simpl; rewrite ?sum_list_with_split; unfold reading, writing; simpl.
      * lia.
      * lia.
      * discriminate.
      * intros _. by apply Hmem.
      * apply Forall_app. split; [exact Hbefore|]. constructor; [|exact Hafter].
        split; simpl.
        -- intros v' m' Hin. apply Htodo. by right.
        -- split; [lia | reflexivity].
      * by rewrite app_nil_r.
  - (* inside SetLatestVersionLegacy *)
    destruct Hpos as (Hlit & Hk & m0 & Hm0).
    unfold reading, writing in Hrd, Hwr. simpl in *.
    assert (Hw : writer (lock u) = true).
    { destruct (writer (lock u)); [reflexivity | lia]. }
    rewrite Hw in Hwr. specialize (Hex Hw).
    destruct (decide (k < nfields)) as [Hlt|Hge].
    + injection Hg as <- <- <-.
      split; simpl; rewrite ?sum_list_with_split; unfold reading, writing; simpl.
      * lia.
      * rewrite Hw. lia.
      * intros _. exact Hex.
      * rewrite Hw. discriminate.
      * apply Forall_app. split.
        { eapply pos_ok_all_idle; [| |exact Hbefore]; count_lia. }
        constructor.
        { split; simpl; [exact Htodo|]. split; [exact Hlit|].
          split; [lia|]. exists m0. simpl. by rewrite Hm0. }
        eapply pos_ok_all_idle; [| |exact Hafter]; count_lia.
      * by rewrite app_nil_r.
    + assert (k = nfields) as -> by lia.
      rewrite copy_upto_all in Hm0.
      unfold Unlock in Hg. rewrite Hw in Hg. injection Hg as <- <- <-.
      split; simpl; rewrite ?sum_list_with_split; unfold reading, writing; simpl.
      * lia.
      * lia.
      * discriminate.
      * intros _. by rewrite Hm0.
      * apply Forall_app. split; [exact Hbefore|]. constructor; [|exact Hafter].
        split; simpl; [exact Htodo | exact I].
      * by rewrite app_nil_r.
  - (* inside GetVersionInfoLegacy *)
    destruct Hpos as (Hk & Hbuf).
    unfold reading, writing in Hrd, Hwr. simpl in *.
    assert (Hw : writer (lock u) = false).
    { destruct (writer (lock u)); [|reflexivity]. specialize (Hex eq_refl). lia. }
    rewrite Hw in Hwr. specialize (Hmem Hw).
    destruct (decide (k < nfields)) as [Hlt|Hge].
    + injection Hg as <- <- <-.
      split; simpl; rewrite ?sum_list_with_split; unfold reading, writing; simpl.
      * lia.
      * rewrite Hw. lia.
      * rewrite Hw. discriminate.
      * intros _. exact Hmem.
      * apply Forall_app. split; [exact Hbefore|]. constructor; [|exact Hafter].
        split; simpl; [exact Htodo|]. split; [lia | by rewrite Hbuf].
      * by rewrite app_nil_r.
    + assert (k = nfields) as -> by lia.
      rewrite copy_upto_all in Hbuf.
      unfold RUnlock in Hg. destruct (readers (lock u)) as [|n] eqn:Hn; [lia|].
      injection Hg as <- <- <-.
      split; simpl; rewrite ?sum_list_with_split; unfold reading, writing; simpl.
      * lia.
      * rewrite Hw. lia.
      * rewrite Hw. discriminate.
      * intros _. exact Hmem.
      * apply Forall_app. split; [exact Hbefore|]. constructor; [|exact Hafter].
        split; simpl; [exact Htodo | exact I].
      * apply Forall_app. split; [exact Hret|]. constructor; [|constructor].
        simpl. split; [by rewrite Hbuf | reflexivity].
Qed.

Lemma system_inv_run P s s' :
  system_inv P s → rtc system_step s s' → system_inv P s'.
Proof.
  intros Hinv Hrun. induction Hrun as [|s1 s2 s3 Hstep _ IH]; [exact Hinv|].
  apply IH. by eapply system_inv_step.
Qed.

(** C3. In every run of any number of goroutines that call
    SetLatestVersionLegacy and GetVersionInfoLegacy on one TestUpdater, in
    any interleaving of their steps, each record a read returned is the
    record one single write stored (its Version and MinAuto are the two
    arguments of that one call, its RolloutProportion is 1.0), or the record
    the constructor stored; the error returned with it is nil. *)
Theorem concurrent_reads_see_one_write
    (version minAuto : pointer semver_Version) (progs : list (list call))
    (s : system) (r : VersionInfoLegacy) (e : error) :
  rtc system_step (system_init version minAuto progs) s →
  (r, e) ∈ returned s →
  from_one_write version minAuto progs r ∧ e = None.
Proof.
  intros Hrun Hin.
  assert (Hinv : system_inv (from_one_write version minAuto progs) s).
  { eapply system_inv_run; [|exact Hrun]. apply system_inv_init.
    - by left.
    - intros p v m Hp Hc. right. by exists p, v, m. }
  destruct Hinv as [_ _ _ _ _ Hret].
  rewrite Forall_forall in Hret. exact (Hret _ Hin).
Qed.

(** Run alone on a store nobody holds the lock of, the steps of one call
    end in the store the call leaves when taken as a whole. *)
Lemma SetLatestVersionLegacy_steps u version minAuto rets :
  unlocked u →
  ∃ u', SetLatestVersionLegacy u version minAuto = Returns u' ∧
        rtc system_step
          (mkSystem [mkGoroutine
                       [CallSetLatestVersionLegacy version minAuto] Idle] u rets)
          (mkSystem [mkGoroutine [] Idle] u' rets).
Proof.
  destruct u as [lat rel lk]. unfold unlocked. simpl. intros ->.
  eexists. split; [reflexivity|].
  do 6 (eapply rtc_l;
        [apply (step_goroutine []); reflexivity | simpl; rewrite ?app_nil_r]).
  apply rtc_refl.
Qed.

Lemma GetVersionInfoLegacy_steps u ctx dl ch rets :
  unlocked u →
  ∃ u' res, GetVersionInfoLegacy u ctx dl ch = Returns (u', res) ∧
        rtc system_step
          (mkSystem [mkGoroutine
                       [CallGetVersionInfoLegacy ctx dl ch] Idle] u rets)
          (mkSystem [mkGoroutine [] Idle] u' (rets ++ [res])).
Proof.
  destruct u as [lat rel lk]. unfold unlocked. simpl. intros ->.
  eexists _, _. split; [reflexivity|].
  do 5 (eapply rtc_l;
        [apply (step_goroutine []); reflexivity | simpl; rewrite ?app_nil_r]).
  eapply rtc_l; [apply (step_goroutine []); reflexivity|]. simpl.
  destruct lat; apply rtc_refl.
Qed.
(** ** Mocks: the TLS-issue channel *)

Lemma tls_wired_accepts m e :
  exp_receiver e = m → exp_method e = "GetTLSIssueCh" → exp_args e = [] →
  exp_times e = AnyTimes → accepts e m "GetTLSIssueCh" [] = true.
Proof.
  intros Hr Hm Ha Ht. unfold accepts, exhausted. rewrite Ha, Ht. simpl.
  rewrite !bool_decide_eq_true_2 by assumption. reflexivity.
Qed.

(** Counting a call changes neither what an expectation answers nor whom. *)
Lemma find_expectation_head recv method args rets es' e0 rest :
  find_expectation (e0 :: rest) recv method args = Some (rets, es') →
  ∃ e1 rest', es' = e1 :: rest' ∧
              exp_receiver e1 = exp_receiver e0 ∧ exp_method e1 = exp_method e0 ∧
              exp_args e1 = exp_args e0 ∧ exp_rets e1 = exp_rets e0 ∧
              exp_times e1 = exp_times e0.
Proof.
  simpl. intros Hfind.
  destruct (accepts e0 recv method args).
  - injection Hfind as <- <-. by exists (count_call e0), rest.
  - destruct (find_expectation rest recv method args) as [[r es'']|];
      [|discriminate].
    injection Hfind as <- <-. by exists e0, es''.
Qed.

Lemma tls_wired_mock_call m ch w m' method args rets w' :
  tls_wired m ch w → mock_call w m' method args = Returns (rets, w') →
  tls_wired m ch w'.
Proof.
  intros (e & es & Hlook & Hr & Hm & Ha & Hrets & Ht). unfold mock_call.
  destruct (find_expectation _ m' method args) as [[r es']|] eqn:Hfind;
    [|discriminate].
  intros [= <- <-]. unfold tls_wired. simpl.
  destruct (decide (mock_ctrl m' = mock_ctrl m)) as [Heq|Hne].
  - rewrite Heq in *. rewrite Hlook in Hfind.
    destruct (find_expectation_head _ _ _ _ _ _ _ Hfind)
      as (e1 & rest' & -> & H1 & H2 & H3 & H4 & H5).
    exists e1, rest'. rewrite lookup_insert_eq. by rewrite H1, H2, H3, H4, H5.
  - exists e, es. by rewrite lookup_insert_ne.
Qed.

Lemma tls_wired_expect m ch w m' method args rets t :
  tls_wired m ch w → tls_wired m ch (expect w m' method args rets t).
Proof.
  intros (e & es & Hlook & Hrest). unfold tls_wired, expect. simpl.
  destruct (decide (mock_ctrl m' = mock_ctrl m)) as [Heq|Hne].
  - rewrite Heq, Hlook, lookup_insert_eq. simpl. by eexists _, _.
  - exists e, es. by rewrite lookup_insert_ne.
Qed.

Lemma tls_wired_close_chan m ch w c w' :
  tls_wired m ch w → close_chan w c = Returns w' → tls_wired m ch w'.
Proof.
  intros Hw. unfold close_chan. destruct c as [a|]; [|discriminate].
  destruct (chans w !! a) as [[]|]; try discriminate.
  by intros [= <-].
Qed.

Lemma tls_wired_run_events mocks m ch evs w :
  tls_wired m ch w → tls_wired m ch (run_events mocks w evs).
Proof.
  revert w. induction evs as [|ev evs IH]; intros w Hw; [exact Hw|].
  apply IH. destruct ev as [m' method args|m' method args rets t|]; simpl.
  - destruct (mock_call w m' method args) as [[rets w']| | |] eqn:Hcall;
      try exact Hw.
    by eapply tls_wired_mock_call.
  - by apply tls_wired_expect.
  - unfold Close. destruct (close_chan w (TLSIssueCh mocks)) eqn:Hclose;
      try exact Hw.
    by eapply tls_wired_close_chan.
Qed.

Lemma tls_wired_GetTLSIssueCh m ch w :
  tls_wired m ch w →
  ∃ w', GetTLSIssueCh w m = Returns (ch, w') ∧ tls_wired m ch w'.
Proof.
  intros Hw. pose proof Hw as (e & es & Hlook & Hr & Hm & Ha & Hrets & Ht).
  unfold GetTLSIssueCh.
  destruct (mock_call w m "GetTLSIssueCh" []) as [[rets w']| | |] eqn:Hcall.
  - exists w'. split; [|by eapply tls_wired_mock_call].
    unfold mock_call in Hcall. rewrite Hlook in Hcall. simpl in Hcall.
    rewrite (tls_wired_accepts m e Hr Hm Ha Ht) in Hcall.
    injection Hcall as <- <-. by rewrite Hrets.
  - unfold mock_call in Hcall. by destruct (find_expectation _ _ _ _) as [[]|].
  - unfold mock_call in Hcall. rewrite Hlook in Hcall. simpl in Hcall.
    by rewrite (tls_wired_accepts m e Hr Hm Ha Ht) in Hcall.
  - unfold mock_call in Hcall. by destruct (find_expectation _ _ _ _) as [[]|].
Qed.

Lemma tls_wired_GetTLSIssueCh_repeat n m ch w :
  tls_wired m ch w →
  ∃ w', GetTLSIssueCh_repeat n w m = Returns (replicate n ch, w').
Proof.
  revert w. induction n as [|n IH]; intros w Hw; simpl; [by eexists|].
  destruct (tls_wired_GetTLSIssueCh m ch w Hw) as (w1 & -> & Hw1). simpl.
  destruct (IH w1 Hw1) as (w2 & ->). simpl. by eexists.
Qed.

(** What NewMocks builds. *)
Lemma NewMocks_spec w tb version minAuto :
  let a := fresh (dom (chans w)) in
  let mocks := (NewMocks w tb version minAuto).1 in
  let w1 := (NewMocks w tb version minAuto).2 in
  TLSIssueCh mocks = Some a ∧ chans w !! a = None ∧
  chans w1 = <[a := false]> (chans w) ∧
  tls_wired (TLSReporter mocks) (TLSIssueCh mocks) w1.
Proof.
  simpl. split; [reflexivity|]. split.
  { apply not_elem_of_dom, is_fresh. }
  split; [reflexivity|].
  unfold tls_wired, NewMocks, expect, NewController, make_chan. simpl.
  rewrite !lookup_insert_eq. simpl. by eexists _, _.
Qed.

(** C7. On a harness built by NewMocks, after any calls on its mocks, any
    further expectations registered and any Close, GetTLSIssueCh on the TLS
    reporter returns the channel of the field TLSIssueCh, which NewMocks made
    (it did not exist before); and any number [n] of calls in a row all
    return that one channel. *)
Theorem GetTLSIssueCh_always_same_channel
    (w : World) (tb : iface TB) (version minAuto : pointer semver_Version)
    (evs : list harness_event) (n : nat) :
  let mocks := (NewMocks w tb version minAuto).1 in
  let w1 := (NewMocks w tb version minAuto).2 in
  (∃ a, TLSIssueCh mocks = Some a ∧ chans w !! a = None ∧
        chans w1 !! a = Some false) ∧
  (∃ w2, GetTLSIssueCh (run_events mocks w1 evs) (TLSReporter mocks)
         = Returns (TLSIssueCh mocks, w2)) ∧
  (∃ w2, GetTLSIssueCh_repeat n (run_events mocks w1 evs) (TLSReporter mocks)
         = Returns (replicate n (TLSIssueCh mocks), w2)).
Proof.
  intros mocks w1.
  destruct (NewMocks_spec w tb version minAuto) as (Hch & Hnew & Hchans & Hwired).
  fold mocks w1 in Hch, Hchans, Hwired.
  split; [|split].
  - eexists. split; [exact Hch|]. split; [exact Hnew|].
    rewrite Hchans. apply lookup_insert_eq.
  - destruct (tls_wired_GetTLSIssueCh _ _ _
                (tls_wired_run_events mocks _ _ evs _ Hwired)) as (w2 & H2 & _).
    by exists w2.
  - by apply tls_wired_GetTLSIssueCh_repeat, tls_wired_run_events.
Qed.

Lemma mock_call_chans w m method args rets w' :
  mock_call w m method args = Returns (rets, w') → chans w' = chans w.
Proof.
  unfold mock_call.
  destruct (find_expectation _ m method args) as [[r es]|]; [|discriminate].
  by intros [= <- <-].
Qed.

Lemma run_events_calls_only_chans mocks w calls :
  chans (run_events mocks w (calls_only calls)) = chans w.
Proof.
  revert w. induction calls as [|[[m method] args] calls IH]; intros w;
    [reflexivity|].
  unfold calls_only, run_events in *. cbn [map foldl]. rewrite IH. simpl.
  destruct (mock_call w m method args) as [[rets w']| | |] eqn:Hcall;
    try reflexivity.
  by eapply mock_call_chans.
Qed.

(** C8. On a harness built by NewMocks, after any calls on its mocks, the
    first Close returns and leaves the TLS-issue channel closed; a second
    Close panics with the run-time error of closing a closed channel, which
    a deferred recover receives (it is not nil). *)
Theorem Close_once_then_panics
    (w : World) (tb : iface TB) (version minAuto : pointer semver_Version)
    (calls : list (mock * string * list value)) :
  let mocks := (NewMocks w tb version minAuto).1 in
  let w1 := run_events mocks (NewMocks w tb version minAuto).2
                       (calls_only calls) in
  ∃ a w2, TLSIssueCh mocks = Some a ∧
          chans w1 !! a = Some false ∧
          Close mocks w1 = Returns w2 ∧
          chans w2 !! a = Some true ∧
          Close mocks w2 = Panics "close of closed channel" ∧
          recover (Close mocks w2) = Some "close of closed channel".
Proof.
  intros mocks w1.
  destruct (NewMocks_spec w tb version minAuto) as (Hch & _ & Hchans & _).
  fold mocks in Hch.
  assert (Hopen : chans w1 !! fresh (dom (chans w)) = Some false).
  { unfold w1. rewrite run_events_calls_only_chans, Hchans.
    apply lookup_insert_eq. }
  exists (fresh (dom (chans w))),
         (mkWorld (<[fresh (dom (chans w)) := true]> (chans w1)) (ctrls w1)).
  assert (Hfirst : Close mocks w1 = Returns
            (mkWorld (<[fresh (dom (chans w)) := true]> (chans w1)) (ctrls w1))).
  { unfold Close, close_chan. by rewrite Hch, Hopen. }
  assert (Hsecond : Close mocks
            (mkWorld (<[fresh (dom (chans w)) := true]> (chans w1)) (ctrls w1))
            = Panics "close of closed channel").
  { unfold Close, close_chan. rewrite Hch. simpl. by rewrite lookup_insert_eq. }
  split; [exact Hch|]. split; [exact Hopen|]. split; [exact Hfirst|].
  split; [apply lookup_insert_eq|]. split; [exact Hsecond|].
  by rewrite Hsecond.
Qed.

(** ** TestCookieJar: cookies are kept by host *)

Lemma run_SetCookies_lookup m calls :
  ∃ m', run_SetCookies (mkTestCookieJar (Some m)) calls
        = Returns (mkTestCookieJar (Some m')) ∧
        ∀ host, m' !! host =
                if bool_decide (Exists (λ c, URL_Host c.1 = host) calls)
                then Some (last_set host calls) else m !! host.
Proof.
  revert m. induction calls as [|[u cs] rest IH]; intros m.
  - exists m. split; [reflexivity|]. intros host.
    rewrite bool_decide_eq_false_2; [reflexivity|]. by intros ?%Exists_nil.
  - destruct (IH (<[URL_Host u := cs]> m)) as (m' & Hrun & Hm').
    exists m'. split; [exact Hrun|]. intros host. rewrite Hm'.
    cbn [last_set].
    destruct (bool_decide (Exists (λ c, URL_Host c.1 = host) rest)) eqn:Hrest.
    + apply bool_decide_eq_true_1 in Hrest.
      rewrite bool_decide_eq_true_2; [reflexivity|]. by apply Exists_cons_tl.
    + apply bool_decide_eq_false_1 in Hrest.
      destruct (decide (URL_Host u = host)) as [Heq|Hne].
      * rewrite bool_decide_eq_true_2 by (by apply Exists_cons_hd).
        rewrite (bool_decide_eq_true_2 _ Heq), Heq. apply lookup_insert_eq.
      * rewrite bool_decide_eq_false_2.
        { by apply lookup_insert_ne. }
        intros [?|?]%Exists_cons; simpl in *; contradiction.
Qed.

Lemma last_set_never host calls :
  Forall (λ c, URL_Host c.1 ≠ host) calls → last_set host calls = None.
Proof.
  induction calls as [|[u cs] rest IH]; [reflexivity|].
  intros [Hu Hrest]%Forall_cons. cbn [last_set fst] in *.
  rewrite (bool_decide_eq_false_2 (URL_Host u = host)) by exact Hu.
  rewrite (IH Hrest). by destruct (bool_decide _).
Qed.

(** C10. On a jar made by NewTestCookieJar, after any sequence of
    SetCookies calls (they all return), Cookies for a URL returns the slice
    given by the last call whose URL had the same Host, and nil when no call
    had that Host.  One more SetCookies(u, cs) makes Cookies return cs, the
    whole slice as given, for every URL with the Host of u, and changes what
    Cookies returns for no other Host. *)
Theorem cookies_keyed_by_host
    (calls : list (URL * slice (pointer Cookie))) (u u' : URL)
    (cs : slice (pointer Cookie)) :
  ∃ j j', run_SetCookies NewTestCookieJar calls = Returns j ∧
          SetCookies j (Some u) cs = Returns j' ∧
          Cookies j (Some u') = Returns (last_set (URL_Host u') calls) ∧
          Cookies j' (Some u') =
            Returns (if bool_decide (URL_Host u' = URL_Host u) then cs
                     else last_set (URL_Host u') calls) ∧
          (Forall (λ c, URL_Host c.1 ≠ URL_Host u') calls →
           Cookies j (Some u') = Returns None).
Proof.
  destruct (run_SetCookies_lookup ∅ calls) as (m & Hrun & Hm).
  exists (mkTestCookieJar (Some m)),
         (mkTestCookieJar (Some (<[URL_Host u := cs]> m))).
  assert (Hget : Cookies (mkTestCookieJar (Some m)) (Some u')
                 = Returns (last_set (URL_Host u') calls)).
  { unfold Cookies. cbn [cookies]. rewrite Hm.
    destruct (bool_decide (Exists _ calls)) eqn:Hex; [reflexivity|].
    apply bool_decide_eq_false_1 in Hex. rewrite lookup_empty.
    rewrite last_set_never; [reflexivity|].
    apply Forall_forall. intros c Hc Heq. apply Hex, Exists_exists. eauto. }
  split; [exact Hrun|]. split; [reflexivity|]. split; [exact Hget|]. split.
  - unfold Cookies in *. cbn [cookies] in *.
    destruct (decide (URL_Host u' = URL_Host u)) as [Heq|Hne].
    + rewrite (bool_decide_eq_true_2 _ Heq), Heq. by rewrite lookup_insert_eq.
    + rewrite (bool_decide_eq_false_2 _ Hne), lookup_insert_ne by done.
      exact Hget.
  - intros Hnever. rewrite Hget. by rewrite last_set_never.
Qed.

(** ** TestLocationsProvider: three new directories *)

Lemma append_assoc (a b c : string) : (a +:+ b) +:+ c = a +:+ b +:+ c.
Proof.
  unfold String.app.
  induction a as [|x a IH]; simpl; [reflexivity | by rewrite IH].
Qed.

Lemma append_empty_r (a : string) : a +:+ EmptyString = a.
Proof.
  unfold String.app.
  induction a as [|x a IH]; simpl; [reflexivity | by rewrite IH].
Qed.

Lemma has_separator_app (a b : string) :
  has_separator (a +:+ b) = has_separator a || has_separator b.
Proof.
  unfold String.app.
  induction a as [|x a IH]; simpl; [reflexivity|].
  by rewrite IH, orb_assoc.
Qed.

Lemma has_separator_digits (d : Decimal.uint) :
  has_separator (NilEmpty.string_of_uint d) = false.
Proof. induction d; simpl; [reflexivity | exact IHd ..]. Qed.

Lemma has_separator_Uitoa (n : N) : has_separator (Uitoa n) = false.
Proof. apply has_separator_digits. Qed.

Lemma joinPath_app (dir a b : string) :
  joinPath dir a +:+ b = joinPath dir (a +:+ b).
Proof.
  unfold joinPath. destruct (ends_with_separator dir);
    by rewrite !append_assoc.
Qed.

(** A successful loop made the directory it names, with one [Mkdir] on the
    file system it started from; the name is the prefix, a decimal number
    and the suffix. *)
Lemma MkdirTemp_loop_creates tries o dir prefix suffix o' name :
  MkdirTemp_loop tries o dir prefix suffix = (o', inl name) →
  Mkdir (fs o) name = inl (fs o') ∧
  ∃ n, name = prefix +:+ Uitoa n +:+ suffix.
Proof.
  revert o. induction tries as [|tries IH]; intros o; simpl; [discriminate|].
  destruct (Mkdir (fs o) _) as [fs'|e] eqn:Hmk.
  - intros [= <- <-]. simpl. split; [exact Hmk | by eexists].
  - destruct (IsExist e).
    + intros Hloop. apply IH in Hloop. exact Hloop.
    + destruct (IsNotExist e); [|discriminate].
      destruct (Stat (fs o) dir) as [e'|]; [|discriminate].
      destruct (IsNotExist e'); discriminate.
Qed.

Lemma MkdirTemp_creates o dir pattern o' name :
  prefixAndSuffix pattern = inl (pattern, EmptyString) →
  pattern ≠ EmptyString →
  MkdirTemp o dir pattern = (o', inl name) →
  Mkdir (fs o) name = inl (fs o') ∧
  in_directory (effective_dir dir) name ∧
  ∃ n, name = joinPath (effective_dir dir) (pattern +:+ Uitoa n).
Proof.
  intros Hpat Hne. unfold MkdirTemp. rewrite Hpat. fold (effective_dir dir).
  intros Hloop. apply MkdirTemp_loop_creates in Hloop as (Hmk & n & Hname).
  rewrite append_empty_r, joinPath_app in Hname.
  split; [exact Hmk|]. split; [|by exists n].
  exists (pattern +:+ Uitoa n). split; [|split; [|exact Hname]].
  - destruct pattern; [done | discriminate].
  - rewrite has_separator_app, has_separator_Uitoa, orb_false_r.
    unfold prefixAndSuffix in Hpat. by destruct (has_separator pattern).
Qed.

Lemma NewTestLocationsProvider_creates o dir p o' :
  NewTestLocationsProvider o dir = Returns (p, o') →
  ∃ o1 o2,
    MkdirTemp o dir "config" = (o1, inl (config p)) ∧
    MkdirTemp o1 dir "data" = (o2, inl (data p)) ∧
    MkdirTemp o2 dir "cache" = (o', inl (cache p)).
Proof.
  unfold NewTestLocationsProvider.
  destruct (MkdirTemp o dir "config") as [o1 [c|e]] eqn:H1; [|discriminate].
  destruct (MkdirTemp o1 dir "data") as [o2 [d|e]] eqn:H2; [|discriminate].
  destruct (MkdirTemp o2 dir "cache") as [o3 [k|e]] eqn:H3; [|discriminate].
  intros [= <- <-]. exists o1, o2. simpl. by rewrite H2, H3.
Qed.

(** C9, as the code has it. When NewTestLocationsProvider returns, the
    paths UserConfig, UserData and UserCache return each name an entry of
    the directory MkdirTemp worked in, which is the root given to the
    constructor when that root is not the empty string and os.TempDir()
    when it is; the entries are called config, data and cache followed by a
    decimal number; each is a directory now and was none before the call;
    and the three paths differ from each other. *)
Theorem locations_are_new_directories
    (o : OS) (dir : string) (p : TestLocationsProvider) (o' : OS) :
  NewTestLocationsProvider o dir = Returns (p, o') →
  let root := effective_dir dir in
  (in_directory root (UserConfig p) ∧ in_directory root (UserData p) ∧
   in_directory root (UserCache p)) ∧
  (∃ i j k, UserConfig p = joinPath root ("config" +:+ Uitoa i) ∧
            UserData p = joinPath root ("data" +:+ Uitoa j) ∧
            UserCache p = joinPath root ("cache" +:+ Uitoa k)) ∧
  (is_dir (fs o') (UserConfig p) ∧ is_dir (fs o') (UserData p) ∧
   is_dir (fs o') (UserCache p)) ∧
  (¬ is_dir (fs o) (UserConfig p) ∧ ¬ is_dir (fs o) (UserData p) ∧
   ¬ is_dir (fs o) (UserCache p)) ∧
  (UserConfig p ≠ UserData p ∧ UserConfig p ≠ UserCache p ∧
   UserData p ≠ UserCache p).
Proof.
  intros Hnew root.
  apply NewTestLocationsProvider_creates in Hnew as (o1 & o2 & H1 & H2 & H3).
  apply MkdirTemp_creates in H1 as (Hm1 & Hin1 & i & Hn1); [|reflexivity|done].
  apply MkdirTemp_creates in H2 as (Hm2 & Hin2 & j & Hn2); [|reflexivity|done].
  apply MkdirTemp_creates in H3 as (Hm3 & Hin3 & k & Hn3); [|reflexivity|done].
  apply Mkdir_creates in Hm1 as (Hnew1 & Hdir1 & Hkeep1).
  apply Mkdir_creates in Hm2 as (Hnew2 & Hdir2 & Hkeep2).
  apply Mkdir_creates in Hm3 as (Hnew3 & Hdir3 & Hkeep3).
  unfold UserConfig, UserData, UserCache.
  split; [by repeat split|]. split; [by exists i, j, k|].
  split; [by auto|]. split.
  - split; [exact Hnew1|]. split.
    + intros Hd. by apply Hnew2, Hkeep1.
    + intros Hd. by apply Hnew3, Hkeep2, Hkeep1.
  - split; [|split].
    + intros Heq. apply Hnew2. by rewrite <- Heq.
    + intros Heq. apply Hnew3, Hkeep2. by rewrite <- Heq.
    + intros Heq. apply Hnew3. by rewrite <- Heq.
Qed.

(** ** TestUpdater: further properties *)

Lemma run_ops_last u ops a b :
  unlocked u → latest u = legacy_literal a b →
  ∃ u', run_ops u ops = Returns u' ∧ unlocked u' ∧
        latest u' = legacy_literal (last_legacy_args (a, b) ops).1
                                   (last_legacy_args (a, b) ops).2 ∧
        releases u' = last_releases_arg (releases u) ops.
Proof.
  revert u a b. induction ops as [|o ops IH]; intros u a b Hu Hlat.
  - exists u. by rewrite Hlat.
  - cbn [run_ops]. destruct o; cbn [exec_op last_legacy_args last_releases_arg];
      rewrite ?SetLatestVersionLegacy_unlocked, ?GetVersionInfoLegacy_unlocked,
        ?SetLatestVersion_unlocked, ?GetVersionInfo_unlocked by exact Hu;
      cbn [obind fst InstallUpdateLegacy RemoveOldUpdates InstallUpdate].
    + by apply (IH (mkTestUpdater (legacy_literal version minAuto)
                                  (releases u) RWMutex_zero)).
    + by apply IH.
    + by apply IH.
    + by apply IH.
    + by apply (IH (mkTestUpdater (latest u) r RWMutex_zero)).
    + by apply IH.
    + by apply IH.
Qed.

(** X1. On a fresh TestUpdater every sequence of public operations, in any
    mix and order, runs to its end; after it GetVersionInfoLegacy returns
    the Version and MinAuto of the last SetLatestVersionLegacy of the
    sequence (the constructor's when there is none) with RolloutProportion
    1.0, and GetVersionInfo returns the value of the last SetLatestVersion
    (the zero value when there is none), both with a nil error. *)
Theorem getters_follow_last_setter_in_any_mix
    (version minAuto : pointer semver_Version) (ops : list op)
    (ctx : iface Context) (dl : iface Downloader) (ch : Channel) :
  ∃ u, run_ops (NewTestUpdater version minAuto) ops = Returns u ∧
       GetVersionInfoLegacy u ctx dl ch =
       Returns (u, (legacy_literal
                      (last_legacy_args (version, minAuto) ops).1
                      (last_legacy_args (version, minAuto) ops).2, None)) ∧
       GetVersionInfo u ctx dl =
       Returns (u, (last_releases_arg VersionInfo_zero ops, None)).
Proof.
  destruct (run_ops_last (NewTestUpdater version minAuto) ops version minAuto)
    as (u & Hrun & Hu & Hlat & Hrel); [reflexivity | reflexivity |].
  exists u. split; [exact Hrun|].
  rewrite GetVersionInfoLegacy_unlocked, GetVersionInfo_unlocked by exact Hu.
  by rewrite Hlat, Hrel.
Qed.

(** X2. The getters, the two installs and RemoveOldUpdates are read-only:
    any sequence of them on a store whose lock is free runs to its end and
    leaves the store exactly as it was, lock included. *)
Theorem non_setters_leave_store_unchanged (u : TestUpdater) (ops : list op) :
  unlocked u → Forall (λ o, is_setter o = false) ops →
  run_ops u ops = Returns u.
Proof.
  intros Hu Hops. induction Hops as [|o ops Ho _ IH]; [reflexivity|].
  cbn [run_ops]. destruct o; try discriminate Ho; cbn [exec_op];
    rewrite ?GetVersionInfoLegacy_unlocked, ?GetVersionInfo_unlocked
      by exact Hu;
    exact IH.
Qed.

(** X3. On a store whose lock is free a setter overwrites: two
    SetLatestVersionLegacy calls in a row leave what the second alone
    leaves, and likewise for SetLatestVersion; and the two setters commute,
    since each assigns its own field. *)
Theorem setters_overwrite_and_commute
    (u : TestUpdater) (v1 m1 v2 m2 : pointer semver_Version)
    (r1 r2 : VersionInfo) :
  unlocked u →
  (do u1 ← SetLatestVersionLegacy u v1 m1; SetLatestVersionLegacy u1 v2 m2)
  = SetLatestVersionLegacy u v2 m2 ∧
  (do u1 ← SetLatestVersion u r1; SetLatestVersion u1 r2)
  = SetLatestVersion u r2 ∧
  (do u1 ← SetLatestVersionLegacy u v1 m1; SetLatestVersion u1 r1)
  = (do u1 ← SetLatestVersion u r1; SetLatestVersionLegacy u1 v1 m1).
Proof.
  intros Hu.
  rewrite !(SetLatestVersionLegacy_unlocked u), !(SetLatestVersion_unlocked u)
    by exact Hu.
  cbn [obind].
  rewrite !SetLatestVersionLegacy_unlocked, !SetLatestVersion_unlocked
    by reflexivity.
  repeat split.
Qed.


(** ** Goroutines: further properties of every run *)

Lemma reachable_inv version minAuto progs s :
  reachable version minAuto progs s → system_inv (λ _, True) s.
Proof.
  intros Hrun. eapply system_inv_run; [|exact Hrun].
  by apply system_inv_init.
Qed.

Lemma sum_list_with_elem {A} (f : A → nat) (l : list A) (x : A) :
  x ∈ l → f x ≤ sum_list_with f l.
Proof.
  intros (l1 & l2 & ->)%list_elem_of_split. rewrite sum_list_with_split. lia.
Qed.

Lemma sum_list_with_two {A} (f : A → nat) (l : list A) i j x y :
  i ≠ j → l !! i = Some x → l !! j = Some y →
  f x + f y ≤ sum_list_with f l.
Proof.
  revert i j. induction l as [|a l IH]; intros i j Hij Hi Hj; [discriminate|].
  destruct i as [|i], j as [|j]; simpl in *; simplify_eq.
  - apply list_elem_of_lookup_2, (sum_list_with_elem f) in Hj. lia.
  - apply list_elem_of_lookup_2, (sum_list_with_elem f) in Hi. lia.
  - assert (Hne : i ≠ j) by congruence. specialize (IH i j Hne Hi Hj). lia.
Qed.

(** X5. Mutual exclusion: in every state a run can reach, while one
    goroutine is inside SetLatestVersionLegacy (between its Lock and its
    Unlock) no other goroutine is inside SetLatestVersionLegacy or inside
    GetVersionInfoLegacy. *)
Theorem writer_excludes_all_others
    (version minAuto : pointer semver_Version) (progs : list (list call))
    (s : system) (i j : nat) (gi gj : goroutine) :
  reachable version minAuto progs s →
  pool s !! i = Some gi → pool s !! j = Some gj → i ≠ j →
  writing gi = 1 →
  writing gj = 0 ∧ reading gj = 0.
Proof.
  intros Hrun Hi Hj Hij Hw.
  destruct (reachable_inv _ _ _ _ Hrun) as [Hrd Hwr Hex _ _ _].
  pose proof (sum_list_with_two writing _ _ _ _ _ Hij Hi Hj) as Htwo.
  pose proof (sum_list_with_elem reading _ _ (list_elem_of_lookup_2 _ _ _ Hj))
    as Hone.
  destruct (writer (lock (store s))) eqn:Hheld; [|lia].
  specialize (Hex eq_refl). lia.
Qed.

Lemma goroutine_step_safe P s g :
  system_inv P s → g ∈ pool s →
  match goroutine_step g (store s) with
  | Returns _ => True
  | Blocks => pos g = Idle
  | _ => False
  end.
Proof.
  intros [Hrd Hwr Hex _ _ _] Hg.
  pose proof (sum_list_with_elem reading _ _ Hg) as Hr.
  pose proof (sum_list_with_elem writing _ _ Hg) as Hw.
  unfold goroutine_step, reading, writing in *.
  destruct (pos g) as [|k lit|k buf].
  - destruct (todo g) as [|[v m|ctx dl ch] rest]; [reflexivity| |].
    + unfold Lock. destruct (writer _); [reflexivity|].
      by destruct (readers _).
    + unfold RLock. by destruct (writer _).
  - destruct (decide (k < nfields)); [exact I|].
    unfold Unlock. destruct (writer _); [exact I | lia].
  - destruct (decide (k < nfields)); [exact I|].
    unfold RUnlock. destruct (readers _); [lia | exact I].
Qed.

(** X6. In every state a run can reach, the next step of every goroutine is
    a proper step or a wait for the lock: no Unlock or RUnlock of a lock
    that is not held, no panic; and only a goroutine between two calls ever
    waits, one that holds the lock can always go on. *)
Theorem goroutines_never_fault
    (version minAuto : pointer semver_Version) (progs : list (list call))
    (s : system) (g : goroutine) :
  reachable version minAuto progs s → g ∈ pool s →
  match goroutine_step g (store s) with
  | Returns _ => True
  | Blocks => pos g = Idle
  | _ => False
  end.
Proof.
  intros Hrun Hg. eapply goroutine_step_safe; [|exact Hg].
  by eapply reachable_inv.
Qed.











(** X10. A read is a snapshot: whenever a step of a run makes a
    GetVersionInfoLegacy return, the record it returns is, field for field,
    the record in the store at that moment, with a nil error, and the step
    does not change that record; every other step returns nothing. *)
Theorem reads_return_record_in_store
    (version minAuto : pointer semver_Version) (progs : list (list call))
    (s s' : system) :
  reachable version minAuto progs s → system_step s s' →
  returned s' = returned s ∨
  (returned s' = returned s ++ [(latest (store s), None)] ∧
   latest (store s') = latest (store s)).
Proof.
  intros Hrun Hstep.
  destruct (reachable_inv _ _ _ _ Hrun) as [_ _ _ _ Hpool _].
  destruct Hstep as [before g after u rets g' u' r Hg]. simpl in *.
  apply Forall_app in Hpool as [_ Hg_after].
  apply Forall_cons in Hg_after as [[_ Hpos] _].
  destruct g as [td ps]. unfold goroutine_step in Hg. simpl in *.
  destruct ps as [|k lit|k buf].
  - left. destruct td as [|[v m|ctx dl ch] rest]; [discriminate| |].
    + destruct (Lock (lock u)); try discriminate.
      injection Hg as _ _ <-. apply app_nil_r.
    + destruct (RLock (lock u)); try discriminate.
      injection Hg as _ _ <-. apply app_nil_r.
  - left. destruct (decide (k < nfields)).
    + injection Hg as _ _ <-. apply app_nil_r.
    + destruct (Unlock (lock u)); try discriminate.
      injection Hg as _ _ <-. apply app_nil_r.
  - destruct Hpos as (Hk & Hbuf). destruct (decide (k < nfields)).
    + left. injection Hg as _ _ <-. apply app_nil_r.
    + right. assert (k = nfields) as -> by lia.
      rewrite copy_upto_all in Hbuf.
      destruct (RUnlock (lock u)); try discriminate.
      injection Hg as _ <- <-. by rewrite Hbuf.
Qed.

(** ** Mocks: further properties *)

Lemma tls_wired_NewMocks m ch w tb version minAuto :
  tls_wired m ch w → tls_wired m ch (NewMocks w tb version minAuto).2.
Proof.
  intros Hw. unfold NewMocks, NewController, make_chan. simpl.
  do 5 apply tls_wired_expect.
  destruct Hw as (e & es & Hlook & Hrest). exists e, es.
  split; [|exact Hrest]. simpl. rewrite lookup_insert_ne; [exact Hlook|].
  intros Heq. pose proof (is_fresh (dom (ctrls w))) as Hfresh.
  rewrite Heq in Hfresh. apply Hfresh, elem_of_dom. by eexists.
Qed.

(** X11. Two harnesses built one after the other are independent: their
    TLS-issue channels and their controllers differ; closing the first
    leaves the channel of the second open, each TLS reporter keeps
    answering with its own channel, and the second harness can still be
    closed. *)
Theorem harnesses_are_independent
    (w : World) (tb tb' : iface TB)
    (version minAuto version' minAuto' : pointer semver_Version) :
  let m1 := (NewMocks w tb version minAuto).1 in
  let w1 := (NewMocks w tb version minAuto).2 in
  let m2 := (NewMocks w1 tb' version' minAuto').1 in
  let w2 := (NewMocks w1 tb' version' minAuto').2 in
  TLSIssueCh m1 ≠ TLSIssueCh m2 ∧
  mock_ctrl (TLSReporter m1) ≠ mock_ctrl (TLSReporter m2) ∧
  ∃ w3, Close m1 w2 = Returns w3 ∧
        (∃ a2, TLSIssueCh m2 = Some a2 ∧ chans w3 !! a2 = Some false) ∧
        (∃ w4, GetTLSIssueCh w3 (TLSReporter m1)
               = Returns (TLSIssueCh m1, w4)) ∧
        (∃ w4, GetTLSIssueCh w3 (TLSReporter m2)
               = Returns (TLSIssueCh m2, w4)) ∧
        (∃ w4, Close m2 w3 = Returns w4).
Proof.
  intros m1 w1 m2 w2.
  destruct (NewMocks_spec w tb version minAuto) as (Hch1 & _ & Hchans1 & Hwired1).
  destruct (NewMocks_spec w1 tb' version' minAuto')
    as (Hch2 & Hnew2 & Hchans2 & Hwired2).
  fold m1 w1 in Hch1, Hchans1, Hwired1. fold m2 w2 in Hch2, Hchans2, Hwired2.
  set (a1 := fresh (dom (chans w))) in *.
  set (a2 := fresh (dom (chans w1))) in *.
  assert (Ha : a1 ≠ a2).
  { intros Heq. rewrite <- Heq, Hchans1, lookup_insert_eq in Hnew2.
    discriminate. }
  assert (Hc : mock_ctrl (TLSReporter m1) ≠ mock_ctrl (TLSReporter m2)).
  { change (fresh (dom (ctrls w)) ≠ fresh (dom (ctrls w1))).
    intros Heq. apply (is_fresh (dom (ctrls w1))). rewrite <- Heq.
    apply elem_of_dom. destruct Hwired1 as (e & es & Hlook & _).
    change (mock_ctrl (TLSReporter m1)) with (fresh (dom (ctrls w))) in Hlook.
    by eexists. }
  assert (Hopen1 : chans w2 !! a1 = Some false).
  { rewrite Hchans2, lookup_insert_ne, Hchans1 by done.
    apply lookup_insert_eq. }
  set (w3 := mkWorld (<[a1 := true]> (chans w2)) (ctrls w2)).
  assert (Hclose1 : Close m1 w2 = Returns w3).
  { unfold Close, close_chan. by rewrite Hch1, Hopen1. }
  assert (Hopen2 : chans w3 !! a2 = Some false).
  { unfold w3. cbn [chans]. rewrite lookup_insert_ne by done.
    rewrite Hchans2. apply lookup_insert_eq. }
  split; [by rewrite Hch1, Hch2; intros [=]|]. split; [exact Hc|].
  exists w3. split; [exact Hclose1|]. split; [by exists a2|].
  split; [|split].
  - apply (tls_wired_NewMocks _ _ _ tb' version' minAuto') in Hwired1.
    fold w2 in Hwired1.
    destruct (tls_wired_GetTLSIssueCh (TLSReporter m1) (TLSIssueCh m1) w3)
      as (w4 & H4 & _); [|by exists w4].
    by eapply tls_wired_close_chan.
  - destruct (tls_wired_GetTLSIssueCh (TLSReporter m2) (TLSIssueCh m2) w3)
      as (w4 & H4 & _); [|by exists w4].
    by eapply tls_wired_close_chan.
  - unfold Close, close_chan. rewrite Hch2, Hopen2. by eexists.
Qed.

Lemma accepts_other e recv method args :
  exp_receiver e ≠ recv ∨ exp_method e ≠ method →
  accepts e recv method args = false.
Proof.
  unfold accepts. intros [H|H].
  - by rewrite (bool_decide_eq_false_2 _ H).
  - rewrite (bool_decide_eq_false_2 _ H). by rewrite andb_false_r.
Qed.

Lemma find_expectation_skip pre l recv method args :
  Forall (λ x, exp_receiver x ≠ recv ∨ exp_method x ≠ method) pre →
  find_expectation (pre ++ l) recv method args =
  match find_expectation l recv method args with
  | Some (rets, l') => Some (rets, pre ++ l')
  | None => None
  end.
Proof.
  induction 1 as [|x pre Hx _ IH]; simpl.
  - by destruct (find_expectation l recv method args) as [[]|].
  - rewrite (accepts_other _ _ _ _ Hx), IH.
    by destruct (find_expectation l recv method args) as [[]|].
Qed.

Lemma find_expectation_same_rules es recv method args rets es' :
  find_expectation es recv method args = Some (rets, es') →
  Forall2 same_rule es es'.
Proof.
  revert es'. induction es as [|e es IH]; intros es'; simpl; [discriminate|].
  destruct (accepts e recv method args).
  - intros [= <- <-]. constructor; [done|].
    apply Forall2_same_length_lookup_2; [done|].
    intros i x y Hx Hy. by simplify_eq.
  - destruct (find_expectation es recv method args) as [[r es'']|];
      [|discriminate].
    intros [= <- <-]. constructor; [done | by apply IH].
Qed.

Lemma programmed_same_rules m method ms rets ctl es es' w w' :
  ctrls w !! ctl = Some es → Forall2 same_rule es es' →
  ctrls w' = <[ctl := es']> (ctrls w) →
  programmed m method ms rets w → programmed m method ms rets w'.
Proof.
  intros Hes Hsame Hw' (pre & e & post & Hlook & Hpre & Hr & Hm & Ha & Hrets & Ht).
  unfold programmed. rewrite Hw'.
  destruct (decide (ctl = mock_ctrl m)) as [->|Hne].
  - rewrite Hlook in Hes. injection Hes as <-.
    apply Forall2_app_inv_l in Hsame as (pre' & rest' & Hpre' & Hrest' & ->).
    apply Forall2_cons_inv_l in Hrest' as (e' & post' & He' & _ & ->).
    destruct He' as (H1 & H2 & H3 & H4 & H5).
    exists pre', e', post'. rewrite lookup_insert_eq.
    split; [reflexivity|]. split.
    + clear -Hpre Hpre'. induction Hpre' as [|x y l l' Hxy _ IH];
        [constructor|].
      apply Forall_cons in Hpre as [Hx Hl]. constructor; [|by apply IH].
      destruct Hxy as (-> & -> & _). exact Hx.
    + by rewrite H1, H2, H3, H4, H5.
  - exists pre, e, post. by rewrite lookup_insert_ne.
Qed.

Lemma programmed_mock_call m method ms rets w m' method' args r w' :
  programmed m method ms rets w →
  mock_call w m' method' args = Returns (r, w') →
  programmed m method ms rets w'.
Proof.
  intros Hp. unfold mock_call.
  destruct (find_expectation _ m' method' args) as [[r' es']|] eqn:Hfind;
    [|discriminate].
  intros [= <- <-].
  destruct (ctrls w !! mock_ctrl m') as [es|] eqn:Hes.
  - eapply programmed_same_rules; [exact Hes| |reflexivity|exact Hp].
    by eapply find_expectation_same_rules.
  - discriminate.
Qed.

Lemma programmed_expect m method ms rets w m' method' args' rets' t :
  programmed m method ms rets w →
  programmed m method ms rets (expect w m' method' args' rets' t).
Proof.
  intros (pre & e & post & Hlook & Hrest). unfold programmed, expect. simpl.
  destruct (decide (mock_ctrl m' = mock_ctrl m)) as [Heq|Hne].
  - rewrite Heq, Hlook, lookup_insert_eq. simpl.
    exists pre, e, (post ++ [mkExpectation m' method' args' rets' t 0]).
    split; [|exact Hrest]. by rewrite <- app_assoc.
  - exists pre, e, post. by rewrite lookup_insert_ne.
Qed.

Lemma programmed_run_events mocks m method ms rets evs w :
  programmed m method ms rets w →
  programmed m method ms rets (run_events mocks w evs).
Proof.
  revert w. induction evs as [|ev evs IH]; intros w Hw; [exact Hw|].
  apply IH. destruct ev as [m' method' args|m' method' args rets' t|]; simpl.
  - destruct (mock_call w m' method' args) as [[r w']| | |] eqn:Hcall;
      try exact Hw.
    by eapply programmed_mock_call.
  - by apply programmed_expect.
  - unfold Close, close_chan. destruct (TLSIssueCh mocks) as [a|]; [|exact Hw].
    by destruct (chans w !! a) as [[]|].
Qed.

Lemma programmed_call m method ms rets w args :
  programmed m method ms rets w → matches_all ms args = true →
  ∃ w', mock_call w m method args = Returns (rets, w').
Proof.
  intros (pre & e & post & Hlook & Hpre & Hr & Hm & Ha & Hrets & Ht) Hargs.
  unfold mock_call. rewrite Hlook. simpl.
  rewrite (find_expectation_skip _ _ _ _ _ Hpre). simpl.
  assert (accepts e m method args = true) as ->.
  { unfold accepts, exhausted. rewrite Ha, Ht, Hargs.
    by rewrite !bool_decide_eq_true_2. }
  rewrite Hrets. by eexists.
Qed.

Lemma NewMocks_controller w tb version minAuto :
  let mocks := (NewMocks w tb version minAuto).1 in
  let w1 := (NewMocks w tb version minAuto).2 in
  ctrls w1 !! fresh (dom (ctrls w)) =
  Some [mkExpectation (TLSReporter mocks) "GetTLSIssueCh" []
          [VChan (TLSIssueCh mocks)] AnyTimes 0;
        mkExpectation (CrashHandler mocks) "HandlePanic" [MAny] [] AnyTimes 0;
        mkExpectation (Heartbeat mocks) "IsTelemetryAvailable" [MAny] []
          AnyTimes 0;
        mkExpectation (Heartbeat mocks) "GetHeartbeatPeriodicInterval" []
          [VDuration 500000000] AnyTimes 0;
        mkExpectation (Reporter mocks) "ReportMessageWithContext"
          [MEq (VString "Failed to sync, will retry later"); MAny] []
          AnyTimes 0].
Proof.
  unfold NewMocks, expect, NewController, make_chan. simpl.
  by rewrite !lookup_insert_eq.
Qed.

Ltac other_rules :=
  repeat (apply Forall_cons_2;
          [first [left; simpl; congruence | right; simpl; congruence]|]);
  apply Forall_nil_2.

(** X12. The background calls NewMocks programs stay allowed for the life
    of the harness: after any calls on the mocks, further expectations and
    Close, HandlePanic with any argument and IsTelemetryAvailable with any
    argument return, GetHeartbeatPeriodicInterval returns 500 milliseconds,
    and ReportMessageWithContext with the message "Failed to sync, will
    retry later" and any context returns; none is an unexpected call. *)
Theorem background_calls_stay_allowed
    (w : World) (tb : iface TB) (version minAuto : pointer semver_Version)
    (evs : list harness_event) (x : value) :
  let mocks := (NewMocks w tb version minAuto).1 in
  let w2 := run_events mocks (NewMocks w tb version minAuto).2 evs in
  (∃ w3, mock_call w2 (CrashHandler mocks) "HandlePanic" [x]
         = Returns ([], w3)) ∧
  (∃ w3, mock_call w2 (Heartbeat mocks) "IsTelemetryAvailable" [x]
         = Returns ([], w3)) ∧
  (∃ w3, mock_call w2 (Heartbeat mocks) "GetHeartbeatPeriodicInterval" []
         = Returns ([VDuration (500 * 1000 * 1000)], w3)) ∧
  (∃ w3, mock_call w2 (Reporter mocks) "ReportMessageWithContext"
           [VString "Failed to sync, will retry later"; x]
         = Returns ([], w3)).
Proof.
  intros mocks w2.
  pose proof (NewMocks_controller w tb version minAuto) as Hctl.
  split; [|split; [|split]].
  - apply programmed_call with (ms := [MAny]); [|reflexivity].
    apply programmed_run_events. eexists [_], _, [_; _; _].
    split; [exact Hctl|]. split; [|by repeat split].
    other_rules.
  - apply programmed_call with (ms := [MAny]); [|reflexivity].
    apply programmed_run_events. eexists [_; _], _, [_; _].
    split; [exact Hctl|]. split; [|by repeat split].
    other_rules.
  - apply programmed_call with (ms := []); [|reflexivity].
    apply programmed_run_events. eexists [_; _; _], _, [_].
    split; [exact Hctl|]. split; [|by repeat split].
    other_rules.
  - apply programmed_call
      with (ms := [MEq (VString "Failed to sync, will retry later"); MAny]);
      [|reflexivity].
    apply programmed_run_events. eexists [_; _; _; _], _, [].
    split; [exact Hctl|]. split; [|by repeat split].
    other_rules.
Qed.

(** X13. What NewMocks did not program is refused: on a harness as
    NewMocks returns it, every call on the proxy controller and on the
    autostarter, with any method and arguments, is an unexpected call that
    fails the test, and so is ReportMessageWithContext with any message
    other than "Failed to sync, will retry later". *)
Theorem unprogrammed_calls_are_refused
    (w : World) (tb : iface TB) (version minAuto : pointer semver_Version)
    (method : string) (args : list value) (msg : string) (ctx : value) :
  let mocks := (NewMocks w tb version minAuto).1 in
  let w1 := (NewMocks w tb version minAuto).2 in
  mock_call w1 (ProxyCtl mocks) method args = Fatal "Unexpected call" ∧
  mock_call w1 (Autostarter mocks) method args = Fatal "Unexpected call" ∧
  (msg ≠ "Failed to sync, will retry later" →
   mock_call w1 (Reporter mocks) "ReportMessageWithContext"
     [VString msg; ctx] = Fatal "Unexpected call").
Proof.
  intros mocks w1.
  pose proof (NewMocks_controller w tb version minAuto) as Hctl.
  cbv zeta in Hctl. unfold mock_call.
  change (mock_ctrl (ProxyCtl mocks)) with (fresh (dom (ctrls w))).
  change (mock_ctrl (Autostarter mocks)) with (fresh (dom (ctrls w))).
  change (mock_ctrl (Reporter mocks)) with (fresh (dom (ctrls w))).
  subst w1 mocks. rewrite Hctl. cbn [from_option id find_expectation].
  split; [|split].
  - rewrite !accepts_other by (left; simpl; congruence). reflexivity.
  - rewrite !accepts_other by (left; simpl; congruence). reflexivity.
  - intros Hmsg.
    rewrite !accepts_other by (left; simpl; congruence).
    match goal with
    | |- context [accepts ?e ?m ?meth ?args] =>
        assert (accepts e m meth args = false) as ->; [|reflexivity]
    end.
    unfold accepts. cbn [exp_args matches_all matches].
    rewrite (bool_decide_eq_false_2
               (VString "Failed to sync, will retry later" = VString msg))
      by congruence.
    by rewrite !andb_false_r.
Qed.

(** ** TestCookieJar: further properties *)

Ltac jar_case :=
  lazymatch goal with
  | |- _ ↔ _ => split; jar_case
  | |- (∃ _, _) → _ => intros [? ?]; first [discriminate | by repeat split]
  | |- _ → _ => intros ?; jar_case
  | |- ∃ _, _ => first [by exfalso; destruct_and? | by eexists]
  | |- _ ∧ _ => first [by exfalso; destruct_and? | by split]
  | |- _ => first [done | by destruct_and?]
  end.

(** X14. When the jar panics and when it does not: SetCookies returns
    exactly when the URL is not nil and the jar's map was made (as
    NewTestCookieJar does), and panics otherwise, with a nil dereference
    for a nil URL and else with the assignment to an entry of a nil map;
    Cookies returns exactly when the URL is not nil, and on a jar whose map
    was never made it returns nil for every URL. *)
Theorem jar_panics_exactly_on_nil
    (j : TestCookieJar) (u : pointer URL) (cs : slice (pointer Cookie)) :
  ((∃ j', SetCookies j u cs = Returns j') ↔ u ≠ None ∧ cookies j ≠ None) ∧
  ((∃ r, Cookies j u = Returns r) ↔ u ≠ None) ∧
  (u = None →
   SetCookies j u cs = Panics nil_dereference ∧
   Cookies j u = Panics nil_dereference) ∧
  (u ≠ None → cookies j = None →
   SetCookies j u cs = Panics "assignment to entry in nil map" ∧
   Cookies j u = Returns None).
Proof.
  destruct j as [[m|]], u as [url|]; simpl;
    (split; [|split; [|split]]); jar_case.
Qed.

(** X15. SetCookies calls for URLs of different hosts commute: either
    order leaves the same jar; and of two calls for URLs of the same host
    the second alone decides the jar. *)
Theorem SetCookies_commutes_or_overwrites
    (j : TestCookieJar) (u1 u2 : URL) (c1 c2 : slice (pointer Cookie)) :
  (URL_Host u1 ≠ URL_Host u2 →
   (do j1 ← SetCookies j (Some u1) c1; SetCookies j1 (Some u2) c2)
   = (do j1 ← SetCookies j (Some u2) c2; SetCookies j1 (Some u1) c1)) ∧
  (URL_Host u1 = URL_Host u2 →
   (do j1 ← SetCookies j (Some u1) c1; SetCookies j1 (Some u2) c2)
   = SetCookies j (Some u2) c2).
Proof.
  destruct j as [[m|]]; simpl; split; try done.
  - intros Hne. by rewrite insert_insert_ne.
  - intros ->. by rewrite insert_insert_eq.
Qed.

Lemma run_SetCookies_dom m calls :
  ∃ m', run_SetCookies (mkTestCookieJar (Some m)) calls
        = Returns (mkTestCookieJar (Some m')) ∧
        dom m' = hosts_of calls ∪ dom m ∧
        size m' ≤ length calls + size m.
Proof.
  revert m. induction calls as [|[u cs] rest IH]; intros m.
  - exists m. split; [reflexivity|]. split; [|reflexivity].
    unfold hosts_of. simpl. by rewrite (left_id_L ∅ (∪)).
  - destruct (IH (<[URL_Host u := cs]> m)) as (m' & Hrun & Hdom & Hsize).
    exists m'. split; [exact Hrun|]. split.
    + rewrite Hdom, dom_insert_L. unfold hosts_of.
      rewrite fmap_cons, list_to_set_cons. cbn [fst].
      rewrite !(assoc_L (∪)). f_equal. apply (comm_L (∪)).
    + rewrite map_size_insert in Hsize. simpl.
      destruct (m !! URL_Host u); simpl in Hsize; lia.
Qed.

(** X16. The jar keeps an entry for exactly the hosts it was given: after
    any sequence of SetCookies calls on a jar made by NewTestCookieJar the
    keys of its map are the Hosts of the URLs of the calls, neither more nor
    fewer, so nothing is ever dropped, and there are no more keys than
    calls. *)
Theorem jar_holds_exactly_the_hosts_set
    (calls : list (URL * slice (pointer Cookie))) :
  ∃ m, run_SetCookies NewTestCookieJar calls
       = Returns (mkTestCookieJar (Some m)) ∧
       dom m = hosts_of calls ∧
       size m ≤ length calls.
Proof.
  destruct (run_SetCookies_dom ∅ calls) as (m & Hrun & Hdom & Hsize).
  exists m. split; [exact Hrun|]. split.
  - by rewrite Hdom, dom_empty_L, (right_id_L ∅ (∪)).
  - rewrite map_size_empty in Hsize. lia.
Qed.

(** ** TestLocationsProvider: further properties *)

Lemma NewTestLocationsProvider_dirs o dir p o' :
  NewTestLocationsProvider o dir = Returns (p, o') →
  Forall (λ x, ¬ is_dir (fs o) x) (provider_paths p) ∧
  Forall (is_dir (fs o')) (provider_paths p) ∧
  NoDup (provider_paths p) ∧
  ∀ q, is_dir (fs o) q → is_dir (fs o') q.
Proof.
  intros Hnew.
  apply NewTestLocationsProvider_creates in Hnew as (o1 & o2 & H1 & H2 & H3).
  apply MkdirTemp_creates in H1 as (Hm1 & _); [|reflexivity|done].
  apply MkdirTemp_creates in H2 as (Hm2 & _); [|reflexivity|done].
  apply MkdirTemp_creates in H3 as (Hm3 & _); [|reflexivity|done].
  apply Mkdir_creates in Hm1 as (Hnew1 & Hdir1 & Hkeep1).
  apply Mkdir_creates in Hm2 as (Hnew2 & Hdir2 & Hkeep2).
  apply Mkdir_creates in Hm3 as (Hnew3 & Hdir3 & Hkeep3).
  unfold provider_paths, UserConfig, UserData, UserCache.
  split; [|split; [|split]].
  - repeat constructor; [exact Hnew1 | | ].
    + intros Hd. by apply Hnew2, Hkeep1.
    + intros Hd. by apply Hnew3, Hkeep2, Hkeep1.
  - repeat constructor; auto.
  - apply NoDup_cons. split.
    + intros [Heq|[Heq|Hin]%elem_of_cons]%elem_of_cons.
      * apply Hnew2. by rewrite <- Heq.
      * apply Hnew3, Hkeep2. by rewrite <- Heq.
      * by apply elem_of_nil in Hin.
    + apply NoDup_cons. split; [|apply NoDup_singleton].
      intros [Heq|Hin]%elem_of_cons.
      * apply Hnew3. by rewrite <- Heq.
      * by apply elem_of_nil in Hin.
  - auto.
Qed.

(** X17. Two providers never share a directory: when the constructor
    returns twice in a row, under the same root or under two roots, the six
    paths of the two providers are pairwise distinct, all six are
    directories afterwards, and every directory that existed before still
    exists: the constructor removes nothing. *)
Theorem providers_never_share_a_directory
    (o : OS) (dir1 dir2 : string) (p1 p2 : TestLocationsProvider)
    (o1 o2 : OS) :
  NewTestLocationsProvider o dir1 = Returns (p1, o1) →
  NewTestLocationsProvider o1 dir2 = Returns (p2, o2) →
  NoDup (provider_paths p1 ++ provider_paths p2) ∧
  Forall (is_dir (fs o2)) (provider_paths p1 ++ provider_paths p2) ∧
  ∀ q, is_dir (fs o) q → is_dir (fs o2) q.
Proof.
  intros H1 H2.
  apply NewTestLocationsProvider_dirs in H1 as (_ & Hdir1 & Hnd1 & Hkeep1).
  apply NewTestLocationsProvider_dirs in H2 as (Hnew2 & Hdir2 & Hnd2 & Hkeep2).
  rewrite Forall_forall in Hnew2, Hdir1.
  split; [|split].
  - apply NoDup_app. split; [exact Hnd1|]. split; [|exact Hnd2].
    intros x Hx1 Hx2. by apply (Hnew2 x Hx2), Hdir1.
  - apply Forall_app. split; [|exact Hdir2].
    apply Forall_forall. intros x Hx. by apply Hkeep2, Hdir1.
  - auto.
Qed.


End Bridge.

(** ** Examples *)

(** The scenario of the specification: a store seeded with 1.0.0 and 0.9.0
    answers with them, and after SetLatestVersionLegacy(2.0.0, 1.0.0) with
    the new pair; the rollout proportion is 1.0 both times. *)
Example scenario_legacy :
  let u0 : TestUpdater demo_Version demo_VersionInfo unit :=
    NewTestUpdater _ _ [] _ tt demo_v100 demo_v090 in
  GetVersionInfoLegacy _ _ _ unit unit u0 None None "stable"
  = Returns (u0, (mkLegacy _ _ demo_v100 demo_v090 1%float tt, None)) ∧
  ∃ u1, SetLatestVersionLegacy _ _ _ tt u0 demo_v200 demo_v100 = Returns u1 ∧
        GetVersionInfoLegacy _ _ _ unit unit u1 None None "stable"
        = Returns (u1, (mkLegacy _ _ demo_v200 demo_v100 1%float tt, None)).
Proof. split; [reflexivity|]. eexists. split; reflexivity. Qed.

(** A writer and a reader side by side: the writer runs its call, then the
    reader runs its own and returns the record the writer stored. *)
Lemma concurrent_reads_see_one_write_witness :
  let progs : list (list (call demo_Version unit unit)) :=
    [[CallSetLatestVersionLegacy _ _ _ demo_v200 demo_v100];
     [CallGetVersionInfoLegacy _ _ _ None None "stable"]] in
  let r := legacy_literal demo_Version unit tt demo_v200 demo_v100 in
  let s : system demo_Version demo_VersionInfo unit unit unit :=
    mkSystem _ _ _ _ _
      [mkGoroutine _ _ _ _ [] (Idle _ _); mkGoroutine _ _ _ _ [] (Idle _ _)]
      (mkTestUpdater _ _ _ r [] RWMutex_zero) [(r, None)] in
  rtc (system_step _ _ _ tt _ _)
      (system_init _ _ [] _ tt _ _ demo_v100 demo_v090 progs) s ∧
  (r, None) ∈ returned _ _ _ _ _ s ∧
  (from_one_write _ _ tt _ _ demo_v100 demo_v090 progs r ∧
   @None string = None).
Proof.
  intros progs r s.
  assert (Hrun : rtc (system_step _ _ _ tt _ _)
                     (system_init _ _ [] _ tt _ _ demo_v100 demo_v090 progs) s).
  { do 6 (eapply rtc_l;
          [apply (step_goroutine _ _ _ tt _ _ []); reflexivity|]; simpl).
    do 6 (eapply rtc_l;
          [apply (step_goroutine _ _ _ tt _ _ [_]); reflexivity|]; simpl).
    apply rtc_refl. }
  assert (Hin : (r, None) ∈ returned _ _ _ _ _ s) by (apply list_elem_of_here).
  split; [exact Hrun|]. split; [exact Hin|].
  exact (concurrent_reads_see_one_write _ _ _ _ _ _ _ _ _ _ _ _ _ Hrun Hin).
Defined.

(** In the middle of a write the record in memory mixes two writes (the new
    Version beside the old MinAuto), and a reader cannot take the lock. *)
Example reader_waits_while_record_is_torn :
  let progs : list (list (call demo_Version unit unit)) :=
    [[CallSetLatestVersionLegacy _ _ _ demo_v200 demo_v100];
     [CallGetVersionInfoLegacy _ _ _ None None "stable"]] in
  ∃ s : system demo_Version demo_VersionInfo unit unit unit,
    rtc (system_step _ _ _ tt _ _)
        (system_init _ _ [] _ tt _ _ demo_v100 demo_v090 progs) s ∧
    latest _ _ _ (store _ _ _ _ _ s)
    = mkLegacy _ _ demo_v200 demo_v090 1%float tt ∧
    goroutine_step _ _ _ tt _ _
      (mkGoroutine _ _ _ _
         [CallGetVersionInfoLegacy demo_Version unit unit None None "stable"]
         (Idle _ _))
      (store _ _ _ _ _ s) = Blocks.
Proof.
  intros progs. eexists. split; [|split].
  - do 2 (eapply rtc_l;
          [apply (step_goroutine _ _ _ tt _ _ []); reflexivity|]; simpl).
    apply rtc_refl.
  - reflexivity.
  - reflexivity.
Qed.

Lemma latest_and_releases_independent_witness :
  let u : TestUpdater demo_Version demo_VersionInfo unit :=
    NewTestUpdater _ _ [] _ tt demo_v100 demo_v090 in
  unlocked _ _ _ u ∧
  ∃ u1 u2,
    SetLatestVersionLegacy _ _ _ tt u demo_v200 demo_v100 = Returns u1 ∧
    releases _ _ _ u1 = releases _ _ _ u ∧
    GetVersionInfo _ _ _ unit unit u None None
    = Returns (u, (releases _ _ _ u, None)) ∧
    GetVersionInfo _ _ _ unit unit u1 None None
    = Returns (u1, (releases _ _ _ u, None)) ∧
    SetLatestVersion _ _ _ u [(2, 0, 0)] = Returns u2 ∧
    latest _ _ _ u2 = latest _ _ _ u ∧
    GetVersionInfoLegacy _ _ _ unit unit u None None "stable"
    = Returns (u, (latest _ _ _ u, None)) ∧
    GetVersionInfoLegacy _ _ _ unit unit u2 None None "stable"
    = Returns (u2, (latest _ _ _ u, None)).
Proof.
  intros u. split; [reflexivity|].
  apply (latest_and_releases_independent demo_Version demo_VersionInfo unit tt
           unit unit u demo_v200 demo_v100 [(2, 0, 0)] None None "stable").
  reflexivity.
Defined.

(** The file system given by its set of directories meets the interface. *)
Lemma set_Mkdir_creates (fs0 : gset string) (name : string) (fs1 : gset string) :
  set_Mkdir fs0 name = inl fs1 →
  ¬ set_is_dir fs0 name ∧ set_is_dir fs1 name ∧
  ∀ q, set_is_dir fs0 q → set_is_dir fs1 q.
Proof.
  unfold set_Mkdir, set_is_dir. destruct (decide (name ∈ fs0)); [discriminate|].
  intros [= <-]. set_solver.
Qed.

(** A run under the root /work, where the first name drawn for config is
    taken: the loop draws again. *)
Lemma locations_are_new_directories_witness :
  let rand : nat → N := λ i, (7 + N.of_nat i)%N in
  let o := mkOS (gset string) {["/work"; "/work/config7"]} 0 in
  let p := {| config := "/work/config8"; data := "/work/data9";
              cache := "/work/cache10" |} in
  ∃ o',
    NewTestLocationsProvider (gset string) set_Mkdir set_Stat "/tmp" rand
      o "/work" = Returns (p, o') ∧
    (in_directory "/work" (UserConfig p) ∧ in_directory "/work" (UserData p) ∧
     in_directory "/work" (UserCache p)) ∧
    (set_is_dir (fs _ o') (UserConfig p) ∧ set_is_dir (fs _ o') (UserData p) ∧
     set_is_dir (fs _ o') (UserCache p)) ∧
    (UserConfig p ≠ UserData p ∧ UserConfig p ≠ UserCache p ∧
     UserData p ≠ UserCache p).
Proof.
  intros rand o p.
  destruct (NewTestLocationsProvider (gset string) set_Mkdir set_Stat "/tmp"
              rand o "/work") as [[p' o']| | |] eqn:Hnew;
    try (exfalso; vm_compute in Hnew; discriminate Hnew).
  assert (Hp : p' = p).
  { vm_compute in Hnew. injection Hnew as <- _. reflexivity. }
  subst p'. exists o'. split; [reflexivity|].
  destruct (locations_are_new_directories (gset string) set_Mkdir set_Stat
              set_is_dir "/tmp" rand set_Mkdir_creates o "/work" p o' Hnew)
    as (Hin & _ & Hdir & _ & Hneq).
  exact (conj Hin (conj Hdir Hneq)).
Defined.

(** With the empty string as root the directories are made in os.TempDir(),
    here /tmp: the path of the config directory is /tmp/config7, which is no
    entry of a directory called by the empty string. *)
Lemma locations_empty_root_not_under_root :
  let o := mkOS (gset string) {["/tmp"]} 0 in
  let p := {| config := "/tmp/config7"; data := "/tmp/data7";
              cache := "/tmp/cache7" |} in
  (∃ o', NewTestLocationsProvider (gset string) set_Mkdir set_Stat "/tmp"
           (λ _, 7%N) o "" = Returns (p, o')) ∧
  ¬ in_directory "" (UserConfig p).
Proof.
  intros o p. split.
  - destruct (NewTestLocationsProvider (gset string) set_Mkdir set_Stat "/tmp"
                (λ _, 7%N) o "") as [[p' o']| | |] eqn:Hnew;
      try (exfalso; vm_compute in Hnew; discriminate Hnew).
    exists o'. vm_compute in Hnew. injection Hnew as <- _. reflexivity.
  - intros (name & _ & Hsep & Hname).
    unfold joinPath, String.app in Hname. simpl in Hname.
    injection Hname as <-. discriminate Hsep.
Qed.

(** When Mkdir fails because the root does not exist, the constructor
    panics with the error. *)
Example locations_panic_without_root :
  NewTestLocationsProvider unit (λ _ _, inr ENOENT) (λ _ _, Some ENOENT)
    "/tmp" (λ _, 7%N) (mkOS unit tt 0) "/nowhere"
  = Panics "stat /nowhere: no such file or directory".
Proof. reflexivity. Qed.

(** ** Examples for the further properties *)

Lemma non_setters_leave_store_unchanged_witness :
  let u : TestUpdater demo_Version demo_VersionInfo unit :=
    NewTestUpdater _ _ [] _ tt demo_v100 demo_v090 in
  let ops : list (op demo_Version demo_VersionInfo unit unit unit unit) :=
    [OpGetVersionInfoLegacy _ _ _ _ _ _ None None "stable";
     OpInstallUpdateLegacy _ _ _ _ _ _ None None
       (VersionInfoLegacy_zero _ _ tt);
     OpRemoveOldUpdates _ _ _ _ _ _;
     OpGetVersionInfo _ _ _ _ _ _ None None;
     OpInstallUpdate _ _ _ _ _ _ None None tt] in
  unlocked _ _ _ u ∧
  Forall (λ o, is_setter _ _ _ _ _ _ o = false) ops ∧
  run_ops _ _ _ tt _ _ _ u ops = Returns u.
Proof.
  intros u ops.
  assert (Hu : unlocked _ _ _ u) by reflexivity.
  assert (Hops : Forall (λ o, is_setter _ _ _ _ _ _ o = false) ops)
    by (repeat constructor).
  split; [exact Hu|]. split; [exact Hops|].
  exact (non_setters_leave_store_unchanged _ _ _ tt _ _ _ u ops Hu Hops).
Defined.

Lemma setters_overwrite_and_commute_witness :
  let u : TestUpdater demo_Version demo_VersionInfo unit :=
    NewTestUpdater _ _ [] _ tt demo_v100 demo_v090 in
  unlocked _ _ _ u ∧
  (do u1 ← SetLatestVersionLegacy _ _ _ tt u demo_v200 demo_v100;
   SetLatestVersionLegacy _ _ _ tt u1 demo_v100 demo_v090)
  = SetLatestVersionLegacy _ _ _ tt u demo_v100 demo_v090 ∧
  (do u1 ← SetLatestVersion _ _ _ u [(2, 0, 0)];
   SetLatestVersion _ _ _ u1 [(3, 0, 0)])
  = SetLatestVersion _ _ _ u [(3, 0, 0)] ∧
  (do u1 ← SetLatestVersionLegacy _ _ _ tt u demo_v200 demo_v100;
   SetLatestVersion _ _ _ u1 [(2, 0, 0)])
  = (do u1 ← SetLatestVersion _ _ _ u [(2, 0, 0)];
     SetLatestVersionLegacy _ _ _ tt u1 demo_v200 demo_v100).
Proof.
  intros u. split; [reflexivity|].
  apply (setters_overwrite_and_commute _ _ _ tt u). reflexivity.
Defined.

(** The writer and the reader of the examples, the states of their run in
    which the writer has taken the lock, in which the reader is about to
    return, and in which both are done. *)
Abbreviation demo_progs :=
  ([[CallSetLatestVersionLegacy demo_Version unit unit demo_v200 demo_v100];
    [CallGetVersionInfoLegacy demo_Version unit unit None None "stable"]]).

Abbreviation demo_written := (legacy_literal demo_Version unit tt demo_v200 demo_v100).

Abbreviation demo_writer_in :=
  (mkSystem demo_Version demo_VersionInfo unit unit unit
     [mkGoroutine _ _ _ _ [] (Writing _ _ 0 demo_written);
      mkGoroutine _ _ _ _
        [CallGetVersionInfoLegacy demo_Version unit unit None None "stable"]
        (Idle _ _)]
     (mkTestUpdater _ _ _
        (legacy_literal demo_Version unit tt demo_v100 demo_v090) []
        (mkRWMutex true 0))
     []).

Abbreviation demo_reader_leaving :=
  (mkSystem demo_Version demo_VersionInfo unit unit unit
     [mkGoroutine _ _ _ _ [] (Idle _ _);
      mkGoroutine _ _ _ _ [] (Reading _ _ 4 demo_written)]
     (mkTestUpdater _ _ _ demo_written [] (mkRWMutex false 1))
     []).

Abbreviation demo_done :=
  (mkSystem demo_Version demo_VersionInfo unit unit unit
     [mkGoroutine _ _ _ _ [] (Idle _ _); mkGoroutine _ _ _ _ [] (Idle _ _)]
     (mkTestUpdater _ _ _ demo_written [] RWMutex_zero)
     [(demo_written, None)]).

Ltac demo_step before :=
  eapply rtc_l;
  [apply (step_goroutine _ _ _ tt _ _ before); reflexivity | simpl].


Lemma demo_writer_in_reachable :
  reachable _ _ [] _ tt _ _ demo_v100 demo_v090 demo_progs demo_writer_in.
Proof. unfold reachable. demo_step (@nil (goroutine demo_Version unit unit unit)). apply rtc_refl. Defined.

Lemma demo_reader_leaving_reachable :
  reachable _ _ [] _ tt _ _ demo_v100 demo_v090 demo_progs demo_reader_leaving.
Proof.
  unfold reachable.
  do 6 demo_step (@nil (goroutine demo_Version unit unit unit)).
  do 5 demo_step [mkGoroutine demo_Version unit unit unit [] (Idle _ _)].
  apply rtc_refl.
Defined.


Lemma writer_excludes_all_others_witness :
  reachable _ _ [] _ tt _ _ demo_v100 demo_v090 demo_progs demo_writer_in ∧
  writing _ _ _ _
    (mkGoroutine demo_Version unit unit unit [] (Writing _ _ 0 demo_written))
  = 1 ∧
  writing _ _ _ _
    (mkGoroutine demo_Version unit unit unit
       [CallGetVersionInfoLegacy _ _ _ None None "stable"] (Idle _ _)) = 0 ∧
  reading _ _ _ _
    (mkGoroutine demo_Version unit unit unit
       [CallGetVersionInfoLegacy _ _ _ None None "stable"] (Idle _ _)) = 0.
Proof.
  split; [exact demo_writer_in_reachable|]. split; [reflexivity|].
  apply (writer_excludes_all_others _ _ [] _ tt _ _ demo_v100 demo_v090
           demo_progs demo_writer_in 0 1 _ _ demo_writer_in_reachable
           eq_refl eq_refl).
  - discriminate.
  - reflexivity.
Defined.

Lemma goroutines_never_fault_witness :
  reachable _ _ [] _ tt _ _ demo_v100 demo_v090 demo_progs demo_writer_in ∧
  match goroutine_step _ _ _ tt _ _
          (mkGoroutine demo_Version unit unit unit [] (Writing _ _ 0 demo_written))
          (store _ _ _ _ _ demo_writer_in) with
  | Returns _ => True
  | Blocks => False
  | _ => False
  end.
Proof.
  split; [exact demo_writer_in_reachable|].
  pose proof (goroutines_never_fault _ _ [] _ tt _ _ demo_v100 demo_v090
                demo_progs demo_writer_in
                (mkGoroutine _ _ _ _ [] (Writing _ _ 0 demo_written))
                demo_writer_in_reachable (list_elem_of_here _ _)) as H.
  exact H.
Defined.




Lemma reads_return_record_in_store_witness :
  reachable _ _ [] _ tt _ _ demo_v100 demo_v090 demo_progs
    demo_reader_leaving ∧
  system_step _ _ _ tt _ _ demo_reader_leaving demo_done ∧
  (returned _ _ _ _ _ demo_done = returned _ _ _ _ _ demo_reader_leaving ∨
   (returned _ _ _ _ _ demo_done
    = returned _ _ _ _ _ demo_reader_leaving
      ++ [(latest _ _ _ (store _ _ _ _ _ demo_reader_leaving), None)] ∧
    latest _ _ _ (store _ _ _ _ _ demo_done)
    = latest _ _ _ (store _ _ _ _ _ demo_reader_leaving))).
Proof.
  assert (Hstep : system_step _ _ _ tt _ _ demo_reader_leaving demo_done).
  { exact (step_goroutine demo_Version demo_VersionInfo unit tt unit unit
             [mkGoroutine _ _ _ _ [] (Idle _ _)]
             (mkGoroutine _ _ _ _ [] (Reading _ _ 4 demo_written)) []
             (mkTestUpdater _ _ _ demo_written [] (mkRWMutex false 1)) []
             (mkGoroutine _ _ _ _ [] (Idle _ _))
             (mkTestUpdater _ _ _ demo_written [] RWMutex_zero)
             (Some (demo_written, None)) eq_refl). }
  split; [exact demo_reader_leaving_reachable|]. split; [exact Hstep|].
  exact (reads_return_record_in_store _ _ [] _ tt _ _ demo_v100 demo_v090
           demo_progs _ _ demo_reader_leaving_reachable Hstep).
Defined.

(** Two providers under the root /work. *)
Lemma providers_never_share_a_directory_witness :
  let rand : nat → N := λ i, (7 + N.of_nat i)%N in
  let o := mkOS (gset string) {["/work"]} 0 in
  let o1 := mkOS (gset string)
              {["/work"; "/work/config7"; "/work/data8"; "/work/cache9"]} 3 in
  let o2 := mkOS (gset string)
              {["/work"; "/work/config7"; "/work/data8"; "/work/cache9";
                "/work/config10"; "/work/data11"; "/work/cache12"]} 6 in
  let p1 := {| config := "/work/config7"; data := "/work/data8";
               cache := "/work/cache9" |} in
  let p2 := {| config := "/work/config10"; data := "/work/data11";
               cache := "/work/cache12" |} in
  NewTestLocationsProvider (gset string) set_Mkdir set_Stat "/tmp" rand
    o "/work" = Returns (p1, o1) ∧
  NewTestLocationsProvider (gset string) set_Mkdir set_Stat "/tmp" rand
    o1 "/work" = Returns (p2, o2) ∧
  NoDup (provider_paths p1 ++ provider_paths p2) ∧
  Forall (set_is_dir (fs _ o2)) (provider_paths p1 ++ provider_paths p2) ∧
  ∀ q, set_is_dir (fs _ o) q → set_is_dir (fs _ o2) q.
Proof.
  intros rand o o1 o2 p1 p2.
  assert (H1 : NewTestLocationsProvider (gset string) set_Mkdir set_Stat
                 "/tmp" rand o "/work" = Returns (p1, o1))
    by (vm_compute; reflexivity).
  assert (H2 : NewTestLocationsProvider (gset string) set_Mkdir set_Stat
                 "/tmp" rand o1 "/work" = Returns (p2, o2))
    by (vm_compute; reflexivity).
  split; [exact H1|]. split; [exact H2|].
  exact (providers_never_share_a_directory (gset string) set_Mkdir set_Stat
           set_is_dir "/tmp" rand set_Mkdir_creates o "/work" "/work"
           p1 p2 o1 o2 H1 H2).
Defined.

